(** * mysh: a shallow embedding of [mysh_complete.c]

    The shell keeps its state in module-level globals ([last_status],
    [jobs]/[njobs], [vars]/[nvars], [last_bg_pid], ...) and talks to the
    kernel through system calls.  The embedding bundles the globals and the
    part of the system the shell reads and writes (environment, descriptor
    table, files, terminal) into one record, [shell], and turns every C
    function into a function on that record.

    Conventions.
    - A C string is the list of its bytes before the terminating NUL
      ([string]); [int] and [pid_t] values are [Z].
    - An array with its element count ([jobs]/[njobs], [vars]/[nvars],
      [args]/[argc], ...) is the list of its live elements; the count is the
      list's length and the capacity test of the source is kept.
    - A pointer into such an array ([job_t *], [var_t *]) is an index.
    - Struct fields carry the struct's name as a prefix ([job_id] for
      [job_t.id]), since Rocq field names are global.
    - Answers of the kernel and of the C library that depend on the outside
      world (fork, waitpid, chdir, access, glob, getpwnam, open) are the
      fields of a record [kernel] taken as a parameter.
    - [printf] is taken to write at once to descriptor 1 (stdio buffering is
      not modelled), [fprintf(stderr, ...)] and [perror] to descriptor 2.
    - Process groups, terminal ownership and signal dispositions live in the
      kernel and have no image in the record; the calls that only act on
      them ([setpgid], [tcsetpgrp], [killpg], [signal]) are left out. The
      SIGCHLD handler is a function of the events it drains; when it runs
      is not modelled. *)

From Stdlib Require Import ZArith Lia Ascii String.
From stdpp Require Import base strings gmap list pretty.

Local Open Scope Z_scope.

(** ** Constants of the source *)

Definition MAX_LINE : nat := 4096.
Definition MAX_ARGS : nat := 128.
Definition MAX_CMDS : nat := 64.
Definition MAX_REDIRECTS : nat := 16.
Definition MAX_JOBS : nat := 64.
Definition MAX_VARS : nat := 256.

(** Flags of [open] (Linux values of <fcntl.h>). *)
Definition O_RDONLY : Z := 0.
Definition O_WRONLY : Z := 1.
Definition O_CREAT : Z := 64.
Definition O_TRUNC : Z := 512.
Definition O_APPEND : Z := 1024.

Definition LF : string := String "010"%char "".

(** ** Data model *)

Inductive job_state_t := JOB_RUNNING | JOB_STOPPED | JOB_DONE.

Record job_t := mk_job {
  job_id : Z;
  job_pgid : Z;
  job_state : job_state_t;
  job_command : string
}.

Record var_t := mk_var {
  var_name : string;
  var_value : string;
  var_exported : bool
}.

Record redirect_t := mk_redirect {
  rd_fd : Z;
  rd_file : string;
  rd_flags : Z;
  rd_mode : Z
}.

(** [argc] is [length cmd_args], [nredirects] is [length cmd_redirects];
    [args[argc]] is the NULL that ends the vector. *)
Record command_t := mk_command {
  cmd_args : list string;
  cmd_redirects : list redirect_t
}.

Record pipeline_t := mk_pipeline {
  pl_cmds : list command_t;
  pl_negate : bool;
  pl_background : bool
}.

(** What an open descriptor refers to. *)
Inductive endpoint :=
| Term                      (* the stream the shell was started on *)
| RdFile (path : string)
| WrFile (path : string)
| PipeRd (n : nat)
| PipeWr (n : nat).

(** The globals of the source, followed by the process attributes and the
    system objects the shell acts on. *)
Record shell := mk_shell {
  last_status : Z;
  interactive : bool;
  jobs : list job_t;
  vars : list var_t;
  last_bg_pid : Z;
  (* process attributes *)
  shell_pid : Z;                       (* getpid() *)
  environ : gmap string string;
  fdtab : gmap Z endpoint;
  cwd : string;                        (* argument of the last chdir that succeeded *)
  (* system objects *)
  sys_term : string;                   (* bytes written to [Term] *)
  sys_files : gmap string string;      (* regular files: path to content *)
  sys_pipes : gmap nat string          (* bytes written into each pipe *)
}.

Definition set_last_status (v : Z) (st : shell) : shell :=
  mk_shell v (interactive st) (jobs st) (vars st)
    (last_bg_pid st) (shell_pid st) (environ st) (fdtab st) (cwd st)
    (sys_term st) (sys_files st) (sys_pipes st).

Definition set_jobs (v : list job_t) (st : shell) : shell :=
  mk_shell (last_status st) (interactive st) v (vars st)
    (last_bg_pid st) (shell_pid st) (environ st) (fdtab st) (cwd st)
    (sys_term st) (sys_files st) (sys_pipes st).

Definition set_vars (v : list var_t) (st : shell) : shell :=
  mk_shell (last_status st) (interactive st) (jobs st) v
    (last_bg_pid st) (shell_pid st) (environ st) (fdtab st) (cwd st)
    (sys_term st) (sys_files st) (sys_pipes st).

Definition set_last_bg_pid (v : Z) (st : shell) : shell :=
  mk_shell (last_status st) (interactive st) (jobs st)
    (vars st) v (shell_pid st) (environ st) (fdtab st) (cwd st)
    (sys_term st) (sys_files st) (sys_pipes st).

Definition set_environ (v : gmap string string) (st : shell) : shell :=
  mk_shell (last_status st) (interactive st) (jobs st)
    (vars st) (last_bg_pid st) (shell_pid st) v (fdtab st) (cwd st)
    (sys_term st) (sys_files st) (sys_pipes st).

Definition set_fdtab (v : gmap Z endpoint) (st : shell) : shell :=
  mk_shell (last_status st) (interactive st) (jobs st)
    (vars st) (last_bg_pid st) (shell_pid st) (environ st) v (cwd st)
    (sys_term st) (sys_files st) (sys_pipes st).

Definition set_cwd (v : string) (st : shell) : shell :=
  mk_shell (last_status st) (interactive st) (jobs st)
    (vars st) (last_bg_pid st) (shell_pid st) (environ st) (fdtab st) v
    (sys_term st) (sys_files st) (sys_pipes st).

Definition set_sys_term (v : string) (st : shell) : shell :=
  mk_shell (last_status st) (interactive st) (jobs st)
    (vars st) (last_bg_pid st) (shell_pid st) (environ st) (fdtab st)
    (cwd st) v (sys_files st) (sys_pipes st).

Definition set_sys_files (v : gmap string string) (st : shell) : shell :=
  mk_shell (last_status st) (interactive st) (jobs st)
    (vars st) (last_bg_pid st) (shell_pid st) (environ st) (fdtab st)
    (cwd st) (sys_term st) v (sys_pipes st).

Definition set_sys_pipes (v : gmap nat string) (st : shell) : shell :=
  mk_shell (last_status st) (interactive st) (jobs st)
    (vars st) (last_bg_pid st) (shell_pid st) (environ st) (fdtab st)
    (cwd st) (sys_term st) (sys_files st) v.

(** ** Output *)

(** [write(fd, text)]: the bytes go where the descriptor points; a
    descriptor that is closed or open for reading takes nothing. *)
Definition write_fd (fd : Z) (text : string) (st : shell) : shell :=
  match fdtab st !! fd with
  | Some Term => set_sys_term (sys_term st +:+ text) st
  | Some (WrFile path) =>
      set_sys_files
        (<[path := default "" (sys_files st !! path) +:+ text]> (sys_files st)) st
  | Some (PipeWr n) =>
      set_sys_pipes
        (<[n := default "" (sys_pipes st !! n) +:+ text]> (sys_pipes st)) st
  | _ => st
  end.

Definition printf (text : string) (st : shell) : shell := write_fd 1 text st.
Definition eprintf (text : string) (st : shell) : shell := write_fd 2 text st.

(** [%d] of printf and snprintf. *)
Definition fmt_d (n : Z) : string := pretty n.

(** ** Wait statuses (<sys/wait.h>, as decoded in [sigchld_handler]'s comment) *)

Definition signed_char (x : Z) : Z :=
  let y := x mod 256 in if y <? 128 then y else y - 256.

Definition WIFEXITED (s : Z) : bool := Z.land s 127 =? 0.
Definition WEXITSTATUS (s : Z) : Z := Z.land (Z.shiftr s 8) 255.
Definition WIFSIGNALED (s : Z) : bool :=
  0 <? Z.shiftr (signed_char (Z.land s 127 + 1)) 1.
Definition WTERMSIG (s : Z) : Z := Z.land s 127.
Definition WIFSTOPPED (s : Z) : bool := Z.land s 255 =? 127.
Definition WIFCONTINUED (s : Z) : bool := s =? 65535.

(** ** Variable management *)

(** [find_var]: the index of the first entry called [name]. *)
Fixpoint find_var (name : string) (vs : list var_t) : option nat :=
  match vs with
  | [] => None
  | v :: vs' =>
      if bool_decide (var_name v = name) then Some 0%nat
      else S <$> find_var name vs'
  end.

(** [strchr(tok, '=')], then the split at that byte. *)
Fixpoint split_eq (tok : string) : option (string * string) :=
  match tok with
  | "" => None
  | String c tok' =>
      if Ascii.eqb c "=" then Some ("", tok')
      else
        match split_eq tok' with
        | Some (name, value) => Some (String c name, value)
        | None => None
        end
  end.

Fixpoint str_contains (c : ascii) (s : string) : bool :=
  match s with
  | "" => false
  | String d s' => Ascii.eqb d c || str_contains c s'
  end.

(** What follows [pre] in [s], when [s] starts with [pre]. *)
Fixpoint str_strip_prefix (pre s : string) : option string :=
  match pre, s with
  | "", _ => Some s
  | String c pre', String d s' =>
      if Ascii.eqb c d then str_strip_prefix pre' s' else None
  | String _ _, "" => None
  end.

(** The process environment is a list of entries [NAME=value]; [environ]
    keeps it as the map from the text of an entry before its first [=] to
    the text after it.

    [setenv(name, value, 1)]: the library refuses (EINVAL) an empty name and
    a name that holds a [=]; the source does not look at the result. *)
Definition setenv (name value : string) (st : shell) : shell :=
  if bool_decide (name = "") || str_contains "=" name then st
  else set_environ (<[name := value]> (environ st)) st.

(** [getenv(name)]: NULL for the empty name; otherwise the library looks for
    an entry that starts with the bytes of [name] followed by [=], and
    returns what follows. For a name without [=] that is the value of the
    entry of that name. A name that holds a [=], say [A=B], matches the
    entry of [A] when its value starts with [B=], and what is returned is
    the value after these bytes. *)
Definition getenv (name : string) (st : shell) : option string :=
  if bool_decide (name = "") then None
  else
    match split_eq name with
    | None => environ st !! name
    | Some (key, tail) => environ st !! key ≫= str_strip_prefix (tail +:+ "=")
    end.

Definition set_var (name value : string) (exported : bool) (st : shell) : shell :=
  let st1 :=
    match find_var name (vars st) with
    | Some i =>
        set_vars
          (alter (fun v =>
                    mk_var (var_name v) value
                      (if exported then true else var_exported v))
                 i (vars st)) st
    | None =>
        if (length (vars st) <? MAX_VARS)%nat
        then set_vars (vars st ++ [mk_var name value exported]) st
        else st
    end in
  if exported then setenv name value st1 else st1.

Definition get_var (name : string) (st : shell) : option string :=
  if bool_decide (name = "?") then Some (fmt_d (last_status st))
  else if bool_decide (name = "$") then Some (fmt_d (shell_pid st))
  else if bool_decide (name = "!") then Some (fmt_d (last_bg_pid st))
  else
    match find_var name (vars st) with
    | Some i => var_value <$> vars st !! i
    | None => getenv name st
    end.

(** ** Job table *)

Definition add_job (pgid : Z) (cmd : string) (background : bool)
    (st : shell) : shell :=
  if (MAX_JOBS <=? length (jobs st))%nat then st
  else
    let j := mk_job (Z.of_nat (length (jobs st)) + 1) pgid JOB_RUNNING cmd in
    let st1 := set_jobs (jobs st ++ [j]) st in
    if background
    then printf ("[" +:+ fmt_d (Z.of_nat (length (jobs st1))) +:+ "] "
                 +:+ fmt_d pgid +:+ LF) st1
    else st1.

(** [find_job]: the index of the first job of group [pgid]. *)
Fixpoint find_job (pgid : Z) (js : list job_t) : option nat :=
  match js with
  | [] => None
  | j :: js' =>
      if job_pgid j =? pgid then Some 0%nat else S <$> find_job pgid js'
  end.

(** The loop of [remove_job]: the first job of group [pgid] is dropped and
    the jobs after it move down one slot, each with its fields as they are. *)
Fixpoint remove_first (pgid : Z) (js : list job_t) : list job_t :=
  match js with
  | [] => []
  | j :: js' =>
      if job_pgid j =? pgid then js' else j :: remove_first pgid js'
  end.

Definition remove_job (pgid : Z) (st : shell) : shell :=
  set_jobs (remove_first pgid (jobs st)) st.

Definition set_job_state (i : nat) (s : job_state_t) (st : shell) : shell :=
  set_jobs
    (alter (fun j => mk_job (job_id j) (job_pgid j) s (job_command j)) i
       (jobs st)) st.

(** ** The outside world *)

(** Answers of the kernel and of the C library for one run. An error answer
    carries the text [perror] prints for it. [k_wait pid] is the value found
    in the status word after [waitpid(pid, &status, WUNTRACED)]: the source
    never looks at what [waitpid] itself returns. [k_fork i] is what the
    i-th [fork] of a launch returns in the shell (negative on failure). *)
Record kernel := mk_kernel {
  k_pipe : nat -> option string;       (* Some e: the i-th pipe() fails *)
  k_fork : nat -> Z;
  k_fork_err : string;
  k_wait : Z -> Z;
  k_chdir : string -> option string;   (* Some e: chdir(dir) fails *)
  k_access_x : string -> bool;         (* access(path, X_OK) == 0 *)
  k_glob : string -> option (list string); (* gl_pathv of glob(pat, GLOB_NOCHECK); None: glob fails *)
  k_getpwnam : string -> option string;    (* pw_dir of the user *)
  k_open_err : string -> Z -> option string; (* Some e: open(path, flags) fails *)
  k_execv_err : string -> option string    (* Some e: execv(path) fails *)
}.

(** ** Characters (<ctype.h>, C locale) *)

Definition isspace (c : ascii) : bool :=
  match c with
  | "009" | "010" | "011" | "012" | "013" | " " => true
  | _ => false
  end%char.

Definition isalnum (c : ascii) : bool :=
  let n := nat_of_ascii c in
  ((48 <=? n) && (n <=? 57) || (65 <=? n) && (n <=? 90)
   || (97 <=? n) && (n <=? 122))%nat.

Definition is_quote (c : ascii) : bool :=
  match c with
  | "034" | "'" => true
  | _ => false
  end%char.

(** ** Tokenizer *)

(** The loop that steps over white space before a token. *)
Fixpoint skip_spaces (p : string) : string :=
  match p with
  | String c p' => if isspace c then skip_spaces p' else p
  | "" => ""
  end.

(** The inner loop of [tokenize], from the first byte of a token: the bytes
    of the token and what is left of the line from the byte that stopped the
    loop. Either quote character flips the one [in_quote] flag. *)
Fixpoint scan_token (in_quote : bool) (p : string) : string * string :=
  match p with
  | "" => ("", "")
  | String c p' =>
      if in_quote || negb (isspace c) then
        let in_quote' := if is_quote c then negb in_quote else in_quote in
        let '(tok, rest) := scan_token in_quote' p' in
        (String c tok, rest)
      else ("", p)
  end.

(** After the inner loop: unless the line has ended, the byte that stopped
    the token is overwritten with NUL and stepped over. *)
Definition end_token (p : string) : string :=
  match p with
  | String _ p' => p'
  | "" => ""
  end.

(** The outer loop; [room] is [MAX_ARGS - 1 - *ntokens]. *)
Fixpoint tokenize_loop (room : nat) (p : string) : list string :=
  match room with
  | O => []
  | S room' =>
      match skip_spaces p with
      | "" => []
      | String c p' =>
          let '(tok, rest) := scan_token false (String c p') in
          tok :: tokenize_loop room' (end_token rest)
      end
  end.

Definition tokenize (line : string) : list string :=
  tokenize_loop (MAX_ARGS - 1) line.

(** The value of [in_quote] when the scan of the line's last token reaches
    the end of the line: the line has a quote that is never closed. *)
Fixpoint quote_open_at_end (in_quote : bool) (p : string) : bool :=
  match p with
  | "" => in_quote
  | String c p' =>
      if in_quote || negb (isspace c)
      then quote_open_at_end (if is_quote c then negb in_quote else in_quote) p'
      else quote_open_at_end false p'
  end.



(** ** Expansion *)

Definition is_name_char (c : ascii) : bool :=
  isalnum c || Ascii.eqb c "_" || Ascii.eqb c "?" || Ascii.eqb c "$"
  || Ascii.eqb c "!".

(** A copy loop of [expand_word] with its bound: bytes of [p] go to a local
    buffer while [keep] holds and fewer than [room] bytes were copied.
    Returns the bytes copied and what is left of [p]. *)
Fixpoint take_while (keep : ascii -> bool) (room : nat) (p : string)
    : string * string :=
  match p, room with
  | String c p', S room' =>
      if keep c then
        let '(w, rest) := take_while keep room' p' in (String c w, rest)
      else ("", p)
  | _, _ => ("", p)
  end.

Fixpoint str_take (n : nat) (s : string) : string :=
  match n, s with
  | S n', String c s' => String c (str_take n' s')
  | _, _ => ""
  end.

(** The copy of a value into [buf]; it stops when [buf] holds
    [MAX_LINE - 1] bytes. *)
Definition emit (out val : string) : string :=
  out +:+ str_take (MAX_LINE - 1 - String.length out) val.

Definition starts_with (c : ascii) (p : string) : bool :=
  match p with
  | String d _ => Ascii.eqb d c
  | "" => false
  end.

Definition str_tail (p : string) : string :=
  match p with
  | String _ p' => p'
  | "" => ""
  end.

Fixpoint str_last (d : ascii) (s : string) : ascii :=
  match s with
  | "" => d
  | String c s' => str_last c s'
  end.

(** The main loop of [expand_word]. [prev] is the byte before [p] ([None]
    when [p] is at the start of the word) and [out] the text in [buf].
    Every iteration steps over at least one byte of [p], so [fuel] need not
    exceed the length of [p] ([expand_loop_fuel] below). *)
Fixpoint expand_loop (fuel : nat) (k : kernel) (st : shell)
    (prev : option ascii) (p out : string) : string :=
  match fuel, p with
  | S fuel', String c p' =>
      if (MAX_LINE - 1 <=? String.length out)%nat then out
      else if Ascii.eqb c "$" then
        if starts_with "{" p' then
          let '(varname, r) :=
            take_while (fun d => negb (Ascii.eqb d "}")) 255 (str_tail p') in
          let closed := starts_with "}" r in
          expand_loop fuel' k st
            (Some (if closed then "}"%char else str_last "{" varname))
            (if closed then str_tail r else r)
            (emit out (default "" (get_var varname st)))
        else
          let '(varname, r) := take_while is_name_char 255 p' in
          expand_loop fuel' k st (Some (str_last "$" varname)) r
            (emit out (default "" (get_var varname st)))
      else if Ascii.eqb c "~"
              && match prev with
                 | None => true
                 | Some d => Ascii.eqb d ":"
                 end then
        if starts_with "/" p' || bool_decide (p' = "") then
          expand_loop fuel' k st (Some c) p'
            (emit out (default "" (getenv "HOME" st)))
        else
          let '(username, r) :=
            take_while (fun d => negb (Ascii.eqb d "/")) 255 p' in
          expand_loop fuel' k st (Some (str_last c username)) r
            (emit out (default "" (k_getpwnam k username)))
      else expand_loop fuel' k st (Some c) p' (out +:+ String c "")
  | _, _ => out
  end.

Definition expand_word (k : kernel) (st : shell) (word : string) : string :=
  expand_loop (String.length word) k st None word "".

(** ** Results of code that may leave the normal path *)

Inductive outcome (A : Type) :=
| Returns (a : A) (st : shell)
| Dies (st : shell)        (* die(): perror, then exit(1) *)
| Faults.                  (* a NULL argument to strcmp or a store past an array *)
Arguments Returns {A} a st.
Arguments Dies {A} st.
Arguments Faults {A}.

(** ** Parser *)

Definition empty_command : command_t := mk_command [] [].

Definition add_arg (a : string) (cmd : command_t) : command_t :=
  mk_command (cmd_args cmd ++ [a]) (cmd_redirects cmd).

Definition add_redirect (r : redirect_t) (cmd : command_t) : command_t :=
  mk_command (cmd_args cmd) (cmd_redirects cmd ++ [r]).

(** The loop that stores the matches of [glob]: [j < gl_pathc] and
    [argc < MAX_ARGS - 1]. *)
Fixpoint add_matches (paths : list string) (cmd : command_t) : command_t :=
  match paths with
  | [] => cmd
  | path :: paths' =>
      if (length (cmd_args cmd) <? MAX_ARGS - 1)%nat
      then add_matches paths' (add_arg path cmd)
      else cmd
  end.

(** The main loop of [parse_pipeline] from token [i] on. [done] holds the
    commands before the current one, [cmd] is the current one. *)
Fixpoint parse_tokens (k : kernel) (toks : list string)
    (done : list command_t) (cmd : command_t) (in_assignments : bool)
    (st : shell) : outcome (list command_t) :=
  match toks with
  | [] =>
      (* cmd->args[cmd->argc] = NULL *)
      if (MAX_ARGS <=? length (cmd_args cmd))%nat then Faults
      else Returns (done ++ [cmd]) st
  | tok :: rest =>
      let redirect fd flags mode :=
        match rest with
        | target :: rest' =>
            if (MAX_REDIRECTS <=? length (cmd_redirects cmd))%nat then Faults
            else
              parse_tokens k rest' done
                (add_redirect (mk_redirect fd (expand_word k st target) flags mode) cmd)
                in_assignments st
        | [] => Faults (* not reached: guarded by [i + 1 < ntokens] *)
        end in
      let has_next := match rest with [] => false | _ => true end in
      if bool_decide (tok = "|") then
        if (MAX_ARGS <=? length (cmd_args cmd))%nat then Faults
        else if (MAX_CMDS <=? length done + 1)%nat then Faults
        else parse_tokens k rest (done ++ [cmd]) empty_command true st
      else if bool_decide (tok = "<") && has_next then
        redirect 0 O_RDONLY 0
      else if bool_decide (tok = ">") && has_next then
        redirect 1 (Z.lor (Z.lor O_WRONLY O_CREAT) O_TRUNC) 420
      else if bool_decide (tok = ">>") && has_next then
        redirect 1 (Z.lor (Z.lor O_WRONLY O_CREAT) O_APPEND) 420
      else
        match (if in_assignments then split_eq tok else None) with
        | Some (name, value) =>
            parse_tokens k rest done cmd in_assignments
              (set_var name value false st)
        | None =>
            let expanded := expand_word k st tok in
            if str_contains "*" expanded || str_contains "?" expanded then
              match k_glob k expanded with
              | Some paths =>
                  parse_tokens k rest done (add_matches paths cmd) false st
              | None => parse_tokens k rest done cmd false st
              end
            else if (MAX_ARGS <=? length (cmd_args cmd))%nat then Faults
            else parse_tokens k rest done (add_arg expanded cmd) false st
        end
  end.

Definition drop_last {A} (l : list A) : list A := take (length l - 1) l.

(** [parse_pipeline]: the pipeline and the value returned (valid or not). *)
Definition parse_pipeline (k : kernel) (tokens : list string) (st : shell)
    : outcome (bool * pipeline_t) :=
  let negate := bool_decide (head tokens = Some "!") in
  let background := bool_decide (last tokens = Some "&") in
  let upto := if background then drop_last tokens else tokens in
  let body := if negate then drop 1 upto else upto in
  match parse_tokens k body [] empty_command true st with
  | Returns cmds st' =>
      let valid :=
        match cmds with
        | [] => false
        | c0 :: _ =>
            bool_decide (cmd_args c0 <> []) || bool_decide (cmd_redirects c0 <> [])
        end in
      Returns (valid, mk_pipeline cmds negate background) st'
  | Dies st' => Dies st'
  | Faults => Faults
  end.

(** ** Builtins *)

Definition perror (what err : string) (st : shell) : shell :=
  eprintf (what +:+ ": " +:+ err +:+ LF) st.

Definition builtin_cd (k : kernel) (cmd : command_t) (st : shell) : Z * shell :=
  let dir :=
    match cmd_args cmd !! 1%nat with
    | Some d => Some d
    | None => getenv "HOME" st
    end in
  match dir with
  | None => (1, eprintf ("cd: HOME not set" +:+ LF) st)
  | Some d =>
      match k_chdir k d with
      | Some err => (1, perror "cd" err st)
      | None => (0, set_cwd d st)
      end
  end.

(** One turn of the loop of [builtin_export]. *)
Definition export_arg (arg : string) (st : shell) : shell :=
  match split_eq arg with
  | Some (name, value) => set_var name value true st
  | None =>
      match find_var arg (vars st) with
      | Some i =>
          match vars st !! i with
          | Some v =>
              setenv (var_name v) (var_value v)
                (set_vars
                   (alter (fun v => mk_var (var_name v) (var_value v) true) i
                      (vars st)) st)
          | None => st
          end
      | None => st
      end
  end.

Definition builtin_export (cmd : command_t) (st : shell) : Z * shell :=
  (0, foldl (fun s arg => export_arg arg s) st (drop 1 (cmd_args cmd))).

Definition builtin_fg (k : kernel) (cmd : command_t) (st : shell) : Z * shell :=
  match last (jobs st) with
  | None => (1, eprintf ("fg: no jobs" +:+ LF) st)
  | Some job =>
      let status := k_wait k (- job_pgid job) in
      let st1 :=
        if WIFEXITED status then
          remove_job (job_pgid job) (set_last_status (WEXITSTATUS status) st)
        else if WIFSTOPPED status then
          set_job_state (length (jobs st) - 1) JOB_STOPPED st
        else st in
      (last_status st1, st1)
  end.

Definition builtin_bg (cmd : command_t) (st : shell) : Z * shell :=
  match last (jobs st) with
  | None => (1, eprintf ("bg: no jobs" +:+ LF) st)
  | Some job =>
      match job_state job with
      | JOB_STOPPED => (0, set_job_state (length (jobs st) - 1) JOB_RUNNING st)
      | _ => (0, st)
      end
  end.

Definition jobs_line (j : job_t) : string :=
  "[" +:+ fmt_d (job_id j) +:+ "] "
  +:+ match job_state j with JOB_RUNNING => "Running" | _ => "Stopped" end
  +:+ "    " +:+ job_command j +:+ LF.

Definition builtin_jobs (cmd : command_t) (st : shell) : Z * shell :=
  (0, foldl (fun s j => printf (jobs_line j) s) st (jobs st)).

Definition is_builtin (name : string) : bool :=
  bool_decide (name = "cd") || bool_decide (name = "export")
  || bool_decide (name = "fg") || bool_decide (name = "bg")
  || bool_decide (name = "jobs").

(** [run_builtin]; [name] is [cmd->args[0]]. *)
Definition run_builtin (k : kernel) (name : string) (cmd : command_t)
    (st : shell) : Z * shell :=
  if bool_decide (name = "cd") then builtin_cd k cmd st
  else if bool_decide (name = "export") then builtin_export cmd st
  else if bool_decide (name = "fg") then builtin_fg k cmd st
  else if bool_decide (name = "bg") then builtin_bg cmd st
  else if bool_decide (name = "jobs") then builtin_jobs cmd st
  else (1, st).

(** ** The SIGCHLD handler *)

(** One turn of the handler's loop, for the pair [waitpid(-1, ...)] gave. *)
Definition sigchld_event (ev : Z * Z) (st : shell) : shell :=
  let '(pid, status) := ev in
  match find_job pid (jobs st) with
  | None => st
  | Some i =>
      match jobs st !! i with
      | None => st
      | Some job =>
          if WIFEXITED status || WIFSIGNALED status then
            remove_job pid
              (printf ("[" +:+ fmt_d (job_id job) +:+ "] Done    "
                       +:+ job_command job +:+ LF)
                 (set_job_state i JOB_DONE st))
          else if WIFSTOPPED status then
            printf ("[" +:+ fmt_d (job_id job) +:+ "] Stopped "
                    +:+ job_command job +:+ LF)
              (set_job_state i JOB_STOPPED st)
          else if WIFCONTINUED status then set_job_state i JOB_RUNNING st
          else st
      end
  end.

Definition sigchld_handler (events : list (Z * Z)) (st : shell) : shell :=
  foldl (fun s ev => sigchld_event ev s) st events.

(** ** Redirections and the child side of a launch *)

(** The lowest descriptor that is not open. *)
Definition lowest_free (tab : gmap Z endpoint) : Z :=
  default (Z.of_nat (size tab))
    (snd <$> list_find (fun fd => tab !! fd = None)
               (Z.of_nat <$> seq 0 (S (size tab)))).

(** [open(path, flags, mode)] when it succeeds: the file is created or
    emptied as the flags say and the lowest free descriptor refers to it. *)
Definition open_file (path : string) (flags : Z) (st : shell) : Z * shell :=
  let fd := lowest_free (fdtab st) in
  let files :=
    if Z.testbit flags 9 (* O_TRUNC *) then <[path := ""]> (sys_files st)
    else if Z.testbit flags 6 (* O_CREAT *) then
      match sys_files st !! path with
      | None => <[path := ""]> (sys_files st)
      | Some _ => sys_files st
      end
    else sys_files st in
  let ep := if Z.testbit flags 0 (* O_WRONLY *) then WrFile path else RdFile path in
  (fd, set_fdtab (<[fd := ep]> (fdtab st)) (set_sys_files files st)).

(** [dup2(fd, target); close(fd)] *)
Definition dup2_close (fd target : Z) (st : shell) : shell :=
  match fdtab st !! fd with
  | Some ep => set_fdtab (delete fd (<[target := ep]> (fdtab st))) st
  | None => st
  end.

(** [setup_redirects]: [inl] when it returns, [inr] when it ends the process
    with [exit(1)]. *)
Fixpoint setup_redirects (k : kernel) (rs : list redirect_t) (st : shell)
    : shell + shell :=
  match rs with
  | [] => inl st
  | r :: rs' =>
      match k_open_err k (rd_file r) (rd_flags r) with
      | Some err => inr (perror (rd_file r) err st)
      | None =>
          let '(fd, st1) := open_file (rd_file r) (rd_flags r) st in
          setup_redirects k rs' (dup2_close fd (rd_fd r) st1)
      end
  end.

(** [strtok(path, ":")]: the non-empty pieces between colons. *)
Fixpoint path_dirs (cur path : string) : list string :=
  let flush := if bool_decide (cur = "") then [] else [cur] in
  match path with
  | "" => flush
  | String c path' =>
      if Ascii.eqb c ":" then flush ++ path_dirs "" path'
      else path_dirs (cur +:+ String c "") path'
  end.

Definition find_in_path (k : kernel) (cmd : string) (st : shell)
    : option string :=
  if str_contains "/" cmd then Some cmd
  else
    let path := default "/usr/bin:/bin" (getenv "PATH" st) in
    snd <$> list_find (fun f => k_access_x k f = true)
              ((fun dir => str_take (MAX_LINE - 1) (dir +:+ "/" +:+ cmd))
                 <$> path_dirs "" path).

(** How the child of a launch ends its life as a copy of the shell. *)
Inductive child_end :=
| ChildExit (code : Z) (st : shell)
| ChildExec (path : string) (argv : list string) (st : shell)
| ChildFaults.

(** The [pid == 0] branch of [execute_pipeline] for command [i] of [ncmds]:
    [st] is the child's copy of the shell; the system objects in the result
    are the ones the child has written. *)
Definition child_process (k : kernel) (ncmds i : nat) (cmd : command_t)
    (st : shell) : child_end :=
  let tab0 := if (0 <? i)%nat then <[0 := PipeRd (i - 1)]> (fdtab st) else fdtab st in
  let tab1 := if (i <? ncmds - 1)%nat then <[1 := PipeWr i]> tab0 else tab0 in
  match setup_redirects k (cmd_redirects cmd) (set_fdtab tab1 st) with
  | inr st1 => ChildExit 1 st1
  | inl st1 =>
      match head (cmd_args cmd) with
      | None => ChildFaults
      | Some name =>
          if is_builtin name then
            let '(status, st2) := run_builtin k name cmd st1 in
            ChildExit status st2
          else
            match find_in_path k name st1 with
            | None =>
                ChildExit 127 (eprintf (name +:+ ": command not found" +:+ LF) st1)
            | Some path =>
                match k_execv_err k path with
                | Some err => ChildExit 1 (perror "execv" err st1)
                | None => ChildExec path (cmd_args cmd) st1
                end
            end
      end
  end.

(** ** Executor (the shell's side) *)

(** C's [!] on an [int]. *)
Definition lnot (x : Z) : Z := if x =? 0 then 1 else 0.

(** [pl->negate ? !status : status] *)
Definition apply_negate (negate : bool) (status : Z) : Z :=
  if negate then lnot status else status.

(** The loop that creates the [ncmds - 1] pipes; [Some e] when [pipe]
    fails. *)
Fixpoint create_pipes (k : kernel) (i n : nat) : option string :=
  match n with
  | O => None
  | S n' =>
      match k_pipe k i with
      | Some err => Some err
      | None => create_pipes k (S i) n'
      end
  end.

(** The shell's side of the fork loop: the pids of the children, or [None]
    when a [fork] fails. *)
Fixpoint fork_children (k : kernel) (i n : nat) : option (list Z) :=
  match n with
  | O => Some []
  | S n' =>
      let pid := k_fork k i in
      if pid <? 0 then None
      else cons pid <$> fork_children k (S i) n'
  end.

(** The foreground wait loop over [pids[i..]], with [status] as it stands.
    [inl]: a child stopped and [execute_pipeline] returns 0 at once;
    [inr]: the loop ran to its end. *)
Fixpoint wait_children (k : kernel) (pgid : Z) (pids : list Z) (status : Z)
    (st : shell) : shell + Z :=
  match pids with
  | [] => inr status
  | pid :: pids' =>
      let wstatus := k_wait k pid in
      if WIFSTOPPED wstatus then
        let st1 := add_job pgid "stopped job" false st in
        inl (printf ("[" +:+ fmt_d (Z.of_nat (length (jobs st1))) +:+ "] Stopped"
                     +:+ LF) st1)
      else
        let status' :=
          match pids' with
          | [] =>
              if WIFEXITED wstatus then WEXITSTATUS wstatus
              else if WIFSIGNALED wstatus then 128 + WTERMSIG wstatus
              else status
          | _ => status
          end in
        wait_children k pgid pids' status' st
  end.

(** The general path of [execute_pipeline], from the creation of the pipes
    on, up to the status before [negate] is applied. [inl]: the function has
    returned 0 (background launch, or a child stopped). *)
Definition launch (k : kernel) (pl : pipeline_t) (st : shell)
    : outcome (unit + Z) :=
  let ncmds := length (pl_cmds pl) in
  match create_pipes k 0 (ncmds - 1) with
  | Some err => Dies (perror "pipe" err st)
  | None =>
      match fork_children k 0 ncmds with
      | None => Dies (perror "fork" (k_fork_err k) st)
      | Some pids =>
          let pgid := default 0 (head pids) in
          let st1 := set_last_bg_pid pgid st in
          if pl_background pl then
            Returns (inl ()) (add_job pgid "background job" true st1)
          else
            match wait_children k pgid pids 0 st1 with
            | inl st2 => Returns (inl ()) st2
            | inr status => Returns (inr status) st1
            end
      end
  end.

Definition execute_pipeline (k : kernel) (pl : pipeline_t) (st : shell)
    : outcome Z :=
  match pl_cmds pl with
  | [] => Returns 0 st
  | [cmd] =>
      match head (cmd_args cmd) with
      | None => Faults
      | Some name =>
          if is_builtin name && negb (pl_background pl) then
            let '(status, st1) := run_builtin k name cmd st in
            Returns (apply_negate (pl_negate pl) status) st1
          else
            match launch k pl st with
            | Returns (inl _) st1 => Returns 0 st1
            | Returns (inr status) st1 =>
                Returns (apply_negate (pl_negate pl) status) st1
            | Dies st1 => Dies st1
            | Faults => Faults
            end
      end
  | _ =>
      match launch k pl st with
      | Returns (inl _) st1 => Returns 0 st1
      | Returns (inr status) st1 =>
          Returns (apply_negate (pl_negate pl) status) st1
      | Dies st1 => Dies st1
      | Faults => Faults
      end
  end.

(** ** The read loop *)

(** [line[strcspn(line, "\n")] = 0] *)
Fixpoint strip_newline (line : string) : string :=
  match line with
  | "" => ""
  | String c line' =>
      if Ascii.eqb c "010" then "" else String c (strip_newline line')
  end.

(** One turn of the loop of [main] in which [fgets] has read [line]. *)
Definition main_step (k : kernel) (line : string) (st : shell)
    : outcome unit :=
  let st1 := if interactive st then printf "$ " st else st in
  let st2 := printf "TTT" st1 in
  let line1 := strip_newline line in
  if bool_decide (line1 = "") then Returns () st2
  else
    match tokenize line1 with
    | [] => Returns () st2
    | tokens =>
        match parse_pipeline k tokens st2 with
        | Returns (true, pl) st3 =>
            match execute_pipeline k pl st3 with
            | Returns status st4 => Returns () (set_last_status status st4)
            | Dies st4 => Dies st4
            | Faults => Faults
            end
        | Returns (false, _) st3 => Returns () st3
        | Dies st3 => Dies st3
        | Faults => Faults
        end
    end.

(** The loop over the lines [fgets] delivers, up to end of input. *)
Fixpoint main_loop (k : kernel) (lines : list string) (st : shell)
    : outcome unit :=
  match lines with
  | [] =>
      Returns () (if interactive st then printf LF (printf "$ " st) else st)
  | line :: lines' =>
      match main_step k line st with
      | Returns _ st1 => main_loop k lines' st1
      | Dies st1 => Dies st1
      | Faults => Faults
      end
  end.

(** ** Vocabulary of the properties *)

(** Sequences of job-table operations. *)
Inductive job_op :=
| Add (pgid : Z) (cmd : string) (background : bool)
| Remove (pgid : Z).

Definition job_step (op : job_op) (st : shell) : shell :=
  match op with
  | Add pgid cmd background => add_job pgid cmd background st
  | Remove pgid => remove_job pgid st
  end.

Definition job_run (ops : list job_op) (st : shell) : shell :=
  foldl (fun s op => job_step op s) st ops.

(** Sequences of variable-store operations: a bare assignment, as
    [parse_pipeline] performs it, and one argument of [export]. *)
Inductive var_op :=
| Assign (name value : string)
| Export (arg : string).

Definition var_step (op : var_op) (st : shell) : shell :=
  match op with
  | Assign name value => set_var name value false st
  | Export arg => export_arg arg st
  end.

Definition var_run (ops : list var_op) (st : shell) : shell :=
  foldl (fun s op => var_step op s) st ops.

(** Every exported variable is in the environment with its value. *)
Definition env_synced (st : shell) : Prop :=
  forall v, v ∈ vars st -> var_exported v = true ->
    environ st !! var_name v = Some (var_value v).

(** How a child that does not stop ends, and the status word the kernel
    builds for it ([ret << 8 | sig], bit 7 for a core dump). *)
Inductive termination :=
| Exited (code : Z)
| Killed (sig : Z) (core : bool).

Definition wait_status (t : termination) : Z :=
  match t with
  | Exited code => Z.shiftl code 8
  | Killed sig core => Z.lor sig (if core then 128 else 0)
  end.

Definition termination_ok (t : termination) : Prop :=
  match t with
  | Exited code => 0 <= code <= 255
  | Killed sig _ => 1 <= sig <= 126
  end.

(** The status the specification assigns to a terminated command. *)
Definition exit_status (t : termination) : Z :=
  match t with
  | Exited code => code
  | Killed sig _ => 128 + sig
  end.

(** A shell fresh from exec: no jobs, no variables, the three standard
    descriptors on the terminal. *)
Definition initial_shell (is_interactive : bool) (pid : Z)
    (env : gmap string string) : shell :=
  mk_shell 0 is_interactive [] [] 0 pid env
    (<[0 := Term]> (<[1 := Term]> (<[2 := Term]> ∅))) "" "" ∅ ∅.

(** The lookup order of the specification: the special parameters, then the
    variable store, then the process environment, then the empty string. *)
Definition special_value (name : string) (st : shell) : option string :=
  if bool_decide (name = "?") then Some (fmt_d (last_status st))
  else if bool_decide (name = "$") then Some (fmt_d (shell_pid st))
  else if bool_decide (name = "!") then Some (fmt_d (last_bg_pid st))
  else None.

Definition store_value (name : string) (st : shell) : option string :=
  (fun iv => var_value iv.2) <$> list_find (fun v => var_name v = name) (vars st).

Definition lookup_order (name : string) (st : shell) : string :=
  match special_value name st with
  | Some v => v
  | None =>
      match store_value name st with
      | Some v => v
      | None => default "" (getenv name st)
      end
  end.

Fixpoint str_forall (f : ascii -> bool) (s : string) : bool :=
  match s with
  | "" => true
  | String c s' => f c && str_forall f s'
  end.

(** Text that [expand_word] copies byte by byte: no [$] and no [~]. *)
Definition plain (s : string) : bool :=
  str_forall (fun c => negb (Ascii.eqb c "$") && negb (Ascii.eqb c "~")) s.

(** A parameter name as [expand_word] scans it after a bare [$]. *)
Definition is_name (s : string) : bool :=
  negb (bool_decide (s = "")) && str_forall is_name_char s
  && (String.length s <=? 255)%nat.

(** A word of a command line: not empty, free of white space and quotes. *)
Definition is_word (s : string) : bool :=
  negb (bool_decide (s = ""))
  && str_forall (fun c => negb (isspace c) && negb (is_quote c)) s.

Fixpoint join_words (ws : list string) : string :=
  match ws with
  | [] => ""
  | [w] => w
  | w :: ws' => w +:+ " " +:+ join_words ws'
  end.

(** The pieces of a line between cuts. A cut is a white-space byte outside
    quotes; a quote character of either kind turns quoting on when it is off
    and off when it is on, and stays in the piece it stands in; a piece
    without bytes is dropped. [cur] is the piece read so far, [quoted] the
    state in front of the next byte. *)
Fixpoint unquoted_fields (cur : string) (quoted : bool) (line : string)
    : list string :=
  let flush := if bool_decide (cur = "") then [] else [cur] in
  match line with
  | "" => flush
  | String c rest =>
      if isspace c && negb quoted then flush ++ unquoted_fields "" false rest
      else unquoted_fields (cur +:+ String c "") (xorb quoted (is_quote c)) rest
  end.

(** The quoting state behind the last byte of the line: set when the line
    holds an odd number of quote characters, of whichever kind. *)
Fixpoint quoted_at_end (quoted : bool) (line : string) : bool :=
  match line with
  | "" => quoted
  | String c rest => quoted_at_end (xorb quoted (is_quote c)) rest
  end.

(** How [waitpid(pid, &wstatus, WUNTRACED)] in the wait loop of
    [execute_pipeline] comes out for one child. *)
Inductive wait_result :=
| Collected (t : termination)
    (* the call returns [pid] and stores the status of the child *)
| Reaped (t : termination).
    (* [waitpid(-1, ...)] in the SIGCHLD handler has collected the child and
       its status first: the call fails with ECHILD and stores nothing *)

(** How the child ended, whoever collected it. *)
Definition child_termination (r : wait_result) : termination :=
  match r with
  | Collected t | Reaped t => t
  end.

(** The word the loop then reads from [wstatus]: the loop body declares it
    without a value and does not look at what [waitpid] returns, so after a
    failed call it reads [stale], whatever the memory held. *)
Definition word_read (stale : Z) (r : wait_result) : Z :=
  match r with
  | Collected t => wait_status t
  | Reaped _ => stale
  end.

(** The events the handler drains: the children it collected, with the
    status words the kernel had for them. *)
Definition reaped_events (children : list (Z * wait_result)) : list (Z * Z) :=
  omap (fun c => match c.2 with
                 | Reaped t => Some (c.1, wait_status t)
                 | Collected _ => None
                 end) children.

(** A kernel for the run of one launch with the given children. *)
Definition racing_kernel (first_pid : Z) (children : list (Z * wait_result))
    (stale : Z) : kernel :=
  mk_kernel (fun _ => None) (fun i => first_pid + Z.of_nat i) ""
    (fun pid =>
       match list_find (fun c => c.1 = pid) children with
       | Some (_, c) => word_read stale c.2
       | None => stale
       end)
    (fun _ => None) (fun _ => false) (fun pat => Some [pat])
    (fun _ => None) (fun _ _ => None) (fun _ => None).

(** A kernel for sample runs: every call succeeds, the i-th child of a
    launch gets pid [first_pid + i] and is reported with status word
    [wstatus], no program is found on the path. *)
Definition sample_kernel (first_pid wstatus : Z) : kernel :=
  mk_kernel (fun _ => None) (fun i => first_pid + Z.of_nat i) ""
    (fun _ => wstatus) (fun _ => None) (fun _ => false) (fun pat => Some [pat])
    (fun _ => None) (fun _ _ => None) (fun _ => None).

(** The scan of a name after a bare [$] stops in front of [post]. *)
Definition name_ends (post : string) : bool :=
  match post with
  | "" => true
  | String c _ => negb (is_name_char c)
  end.

(** The pipeline takes the general path of [execute_pipeline]: it has a
    command, and is not a lone builtin run in the foreground (nor a lone
    command without a name, on which the test of the fast path faults). *)
Definition on_general_path (pl : pipeline_t) : bool :=
  match pl_cmds pl with
  | [] => false
  | [cmd] =>
      match head (cmd_args cmd) with
      | None => false
      | Some name => negb (is_builtin name && negb (pl_background pl))
      end
  | _ => true
  end.

(** The result of a run with its status passed through C's [!]. *)
Definition negated (o : outcome Z) : outcome Z :=
  match o with
  | Returns status st => Returns (lnot status) st
  | Dies st => Dies st
  | Faults => Faults
  end.

(** From [st0] to [st'] the descriptor table is the same, and so are the
    files if descriptors 1 and 2 of [st0] are on the terminal. *)
Definition io_kept (st0 st' : shell) : Prop :=
  fdtab st' = fdtab st0 /\
  (fdtab st0 !! 1 = Some Term -> fdtab st0 !! 2 = Some Term ->
   sys_files st' = sys_files st0).

(** The store as [set_var] keeps it: one entry per name, and every exported
    entry in the environment with its value. *)
Definition store_ok (st : shell) : Prop :=
  NoDup (var_name <$> vars st) /\ env_synced st.

(** ** Further vocabulary *)

(** What identifies a job to the user: all of [job_t] but the state. *)
Definition job_ident (j : job_t) : Z * Z * string :=
  (job_id j, job_pgid j, job_command j).

(** The job [find_job] points at. *)
Definition lookup_job (pgid : Z) (js : list job_t) : option job_t :=
  find_job pgid js ≫= fun i => js !! i.

(** The name an argument of [export] refers to. *)
Definition export_name (arg : string) : string :=
  match split_eq arg with
  | Some (name, _) => name
  | None => arg
  end.

(** The name of the environment entry [getenv] compares [name] with: the
    text of [name] before its first [=]. *)
Definition entry_name (name : string) : string :=
  match split_eq name with
  | Some (key, _) => key
  | None => name
  end.

(** A store operation that [set_var] and [builtin_export] carry through to
    the environment: an export of a name [setenv] accepts, or a bare
    assignment to a variable that is not marked exported. *)
Definition var_op_ok (op : var_op) (st : shell) : Prop :=
  match op with
  | Assign name _ =>
      forall v, v ∈ vars st -> var_name v = name -> var_exported v = false
  | Export arg => export_name arg <> ""
  end.

Fixpoint var_run_ok (ops : list var_op) (st : shell) : Prop :=
  match ops with
  | [] => True
  | op :: ops' => var_op_ok op st /\ var_run_ok ops' (var_step op st)
  end.

(** The token [NAME=VALUE]. *)
Definition assignment_token (nv : string * string) : string :=
  nv.1 +:+ "=" +:+ nv.2.

(** A [PATH] value made of the given directories. *)
Fixpoint join_colon (dirs : list string) : string :=
  match dirs with
  | [] => ""
  | [d] => d
  | d :: dirs' => d +:+ ":" +:+ join_colon dirs'
  end.




(** A word that [parse_pipeline] takes as an argument and passes on as it
    is: no operator, not [!] or [&], no [=], nothing to expand, no pattern
    byte, short enough for the expansion buffer. *)
Definition simple_arg (w : string) : bool :=
  plain w
  && negb (str_contains "=" w) && negb (str_contains "*" w)
  && negb (str_contains "?" w)
  && negb (bool_decide (w ∈ ["|"; "<"; ">"; ">>"; "!"; "&"]))
  && (String.length w <=? MAX_LINE - 1)%nat.

Definition is_redirect_op (w : string) : bool :=
  bool_decide (w ∈ ["<"; ">"; ">>"]).

(** The tokens of [! words &], with the marks that are present. *)
Definition command_tokens (negate : bool) (words : list string)
    (background : bool) : list string :=
  (if negate then ["!"] else []) ++ words ++ (if background then ["&"] else []).

(** The values a process status can take. *)
Definition status_in_range (status : Z) : Prop := 0 <= status <= 255.

(** The file name [find_in_path] builds for a directory:
    [snprintf(buf, sizeof(buf), "%s/%s", dir, cmd)]. *)
Definition path_candidate (dir cmd : string) : string :=
  str_take (MAX_LINE - 1) (dir +:+ "/" +:+ cmd).

(** A system in which [/bin/ls] is the only executable file. *)
Definition ls_kernel : kernel :=
  mk_kernel (fun _ => None) (fun i => 1 + Z.of_nat i) ""
    (fun _ => 0) (fun _ => None) (fun f => bool_decide (f = "/bin/ls"))
    (fun pat => Some [pat]) (fun _ => None) (fun _ _ => None) (fun _ => None).

(** What a descriptor refers to once a redirection has been applied. *)
Definition redirect_endpoint (r : redirect_t) : endpoint :=
  if Z.testbit (rd_flags r) 0 then WrFile (rd_file r) else RdFile (rd_file r).

(** The descriptor table with the targets of [rs] replaced, in order. *)
Definition redirect_table (rs : list redirect_t) (tab : gmap Z endpoint)
    : gmap Z endpoint :=
  foldl (fun tab r => <[rd_fd r := redirect_endpoint r]> tab) tab rs.

(** One turn of the loop of [setup_redirects] in which [open] succeeds. *)
Definition redirect_step (r : redirect_t) (st : shell) : shell :=
  let '(fd, st1) := open_file (rd_file r) (rd_flags r) st in
  dup2_close fd (rd_fd r) st1.
(** * Properties *)

(** ** Tokenizer: sample runs *)

Example tokenize_ex1 : tokenize "ls -la | grep foo" = ["ls"; "-la"; "|"; "grep"; "foo"].
Proof. reflexivity. Qed.
Example tokenize_ex2 : tokenize "ls|wc" = ["ls|wc"].
Proof. reflexivity. Qed.
Example tokenize_ex3 : tokenize "echo 'a b' c" = ["echo"; "'a b'"; "c"].
Proof. reflexivity. Qed.

(** ** Job table *)

Section JobTable.
Implicit Types (st : shell) (js : list job_t) (pgid : Z).

Lemma jobs_printf text st : jobs (printf text st) = jobs st.
Proof.
  unfold printf, write_fd.
  destruct (fdtab st !! 1) as [[]|]; reflexivity.
Qed.

Lemma length_remove_first pgid js :
  (length (remove_first pgid js) <= length js)%nat.
Proof.
  induction js as [|j js IH]; simpl; [lia|].
  destruct (job_pgid j =? pgid); simpl; lia.
Qed.

(** [remove_job] deletes one entry and moves the others as they are: what
    is left is a sublist of the table, ids included. *)
Lemma remove_first_sublist pgid js : sublist (remove_first pgid js) js.
Proof.
  induction js as [|j js IH]; simpl; [constructor|].
  destruct (job_pgid j =? pgid).
  - by apply sublist_cons.
  - by apply sublist_skip.
Qed.

Lemma remove_job_keeps_ids pgid st :
  sublist (job_id <$> jobs (remove_job pgid st)) (job_id <$> jobs st).
Proof. apply fmap_sublist, remove_first_sublist. Qed.

Lemma add_job_jobs pgid cmd bg st :
  jobs (add_job pgid cmd bg st) =
    if (MAX_JOBS <=? length (jobs st))%nat then jobs st
    else jobs st ++ [mk_job (Z.of_nat (length (jobs st)) + 1) pgid JOB_RUNNING cmd].
Proof.
  unfold add_job. destruct (MAX_JOBS <=? _)%nat; [done|].
  destruct bg; [by rewrite jobs_printf|done].
Qed.

Lemma add_job_bound pgid cmd bg st :
  (length (jobs st) <= MAX_JOBS)%nat ->
  (length (jobs (add_job pgid cmd bg st)) <= MAX_JOBS)%nat.
Proof.
  intros H. rewrite add_job_jobs.
  destruct (MAX_JOBS <=? length (jobs st))%nat eqn:E; [done|].
  apply Nat.leb_gt in E. rewrite length_app. simpl. lia.
Qed.

Lemma job_step_bound op st :
  (length (jobs st) <= MAX_JOBS)%nat ->
  (length (jobs (job_step op st)) <= MAX_JOBS)%nat.
Proof.
  destruct op as [pgid cmd bg|pgid]; simpl.
  - apply add_job_bound.
  - intros H. pose proof (length_remove_first pgid (jobs st)). lia.
Qed.

Lemma job_run_bound ops st :
  (length (jobs st) <= MAX_JOBS)%nat ->
  (length (jobs (job_run ops st)) <= MAX_JOBS)%nat.
Proof.
  unfold job_run. revert st.
  induction ops as [|op ops IH]; intros st H; simpl; [done|].
  apply IH, job_step_bound, H.
Qed.
End JobTable.

(** C10. When the table holds [MAX_JOBS] jobs, [add_job] returns the shell
    as it found it: same table, nothing written to any descriptor. With the
    table of a shell that starts within the bound, this keeps the number of
    tracked jobs at or below 64 across every sequence of additions and
    removals. *)
Theorem add_job_full_table_untracked (ops : list job_op) (st0 : shell)
    (pgid : Z) (cmd : string) (background : bool) :
  (length (jobs st0) <= MAX_JOBS)%nat ->
  let st := job_run ops st0 in
  (length (jobs st) <= 64)%nat /\
  (length (jobs st) = MAX_JOBS -> add_job pgid cmd background st = st).
Proof.
  intros H st. split.
  - apply (job_run_bound ops st0 H).
  - intros Hfull. unfold add_job. rewrite Hfull. reflexivity.
Qed.

(** Seventy additions fill the table at 64; one more changes nothing. *)
Lemma add_job_full_table_untracked_witness :
  let st := job_run (replicate 70 (Add 7 "sleep" true)) (initial_shell true 1 ∅) in
  length (jobs st) = 64%nat /\ add_job 9 "late" true st = st.
Proof.
  pose proof (add_job_full_table_untracked
                (replicate 70 (Add 7 "sleep" true)) (initial_shell true 1 ∅)
                9 "late" true) as H.
  assert (Hfull : length (jobs (job_run (replicate 70 (Add 7 "sleep" true))
                                  (initial_shell true 1 ∅))) = MAX_JOBS)
    by (vm_compute; reflexivity).
  intros st. split; [exact Hfull|].
  apply H; [vm_compute; lia|exact Hfull].
Defined.

(** C5 (the code departs from the claim). [add_job] numbers a job with the
    current count plus one, so after a removal the next job takes an id that
    a live job still carries: here the jobs of groups 200 and 300 both have
    id 2, and 300's id is not above the ids handed out before it. *)
Theorem job_id_reused_after_removal :
  jobs (job_run [Add 100 "a" true; Add 200 "b" true; Remove 100;
                 Add 300 "c" true] (initial_shell true 1 ∅))
  = [mk_job 2 200 JOB_RUNNING "b"; mk_job 2 300 JOB_RUNNING "c"].
Proof. vm_compute. reflexivity. Qed.

(** ** Variable store *)

(** C4 (the code departs from the claim). [set_var] calls [setenv] only when
    its own [exported] argument is set. A bare assignment to a variable that
    [export] has marked rewrites the stored value and keeps the mark, but
    leaves the old value in the environment. *)
Theorem bare_assignment_leaves_environment_stale :
  let st := var_run [Export "FOO=a"; Assign "FOO" "b"] (initial_shell false 1 ∅) in
  vars st = [mk_var "FOO" "b" true] /\
  environ st !! "FOO" = Some "a" /\
  ~ env_synced st.
Proof.
  intros st. split; [reflexivity|]. split; [reflexivity|].
  intros H. specialize (H (mk_var "FOO" "b" true)).
  assert (environ st !! "FOO" = Some "b") as E.
  { apply H; [|reflexivity]. apply list_elem_of_here. }
  vm_compute in E. discriminate E.
Qed.

(** The same two steps typed at the prompt. *)
Example export_then_assign_lines :
  match main_loop (sample_kernel 500 0) ["export FOO=a"; "FOO=b"]
          (initial_shell false 1 ∅) with
  | Returns _ st =>
      vars st = [mk_var "FOO" "b" true] /\ environ st !! "FOO" = Some "a"
  | _ => False
  end.
Proof. vm_compute. split; reflexivity. Qed.

(** ** Strings *)

Section Strings.
Implicit Types (s t u : string) (c : ascii).

Lemma str_app_cons c s t : String c s +:+ t = String c (s +:+ t).
Proof. reflexivity. Qed.

Lemma str_app_nil_l s : "" +:+ s = s.
Proof. reflexivity. Qed.

Lemma str_app_nil_r s : s +:+ "" = s.
Proof. induction s as [|c s IH]; [done|]. by rewrite str_app_cons, IH. Qed.

Lemma str_app_assoc s t u : (s +:+ t) +:+ u = s +:+ (t +:+ u).
Proof.
  induction s as [|c s IH]; [done|]. by rewrite !str_app_cons, IH.
Qed.

Lemma str_length_app s t :
  String.length (s +:+ t) = (String.length s + String.length t)%nat.
Proof.
  induction s as [|c s IH]; [done|].
  rewrite str_app_cons. simpl. by rewrite IH.
Qed.

Lemma str_take_0 s : str_take 0 s = "".
Proof. by destruct s. Qed.

Lemma str_take_all n s : (String.length s <= n)%nat -> str_take n s = s.
Proof.
  revert n. induction s as [|c s IH]; intros [|n] H; simpl in *;
    try done; try lia.
  rewrite IH; [done|lia].
Qed.

Lemma str_take_length n s :
  String.length (str_take n s) = Nat.min n (String.length s).
Proof.
  revert n. induction s as [|c s IH]; intros [|n]; simpl; try done.
  by rewrite IH.
Qed.

Lemma str_take_app n s t :
  str_take n (s +:+ t) = str_take n s +:+ str_take (n - String.length s) t.
Proof.
  revert n. induction s as [|c s IH]; intros n.
  - rewrite str_app_nil_l. simpl. rewrite Nat.sub_0_r. by destruct n.
  - rewrite str_app_cons. destruct n; simpl; [done|].
    by rewrite IH, str_app_cons.
Qed.

Lemma str_forall_app f s t :
  str_forall f (s +:+ t) = str_forall f s && str_forall f t.
Proof.
  induction s as [|c s IH]; [done|].
  rewrite str_app_cons. simpl. rewrite IH. by rewrite andb_assoc.
Qed.
End Strings.

(** ** Lookup of a parameter *)

Section Lookup.
Implicit Types (st : shell) (name : string).

Lemma find_var_list_find name (vs : list var_t) :
  find_var name vs = fst <$> list_find (fun v => var_name v = name) vs.
Proof.
  induction vs as [|v vs IH]; simpl; [done|].
  case_bool_decide as Hv.
  - by rewrite decide_True.
  - rewrite decide_False by done. rewrite IH.
    by destruct (list_find _ vs) as [[i w]|].
Qed.

(** [get_var] follows the lookup order of the specification; the NULL it
    returns for a name found nowhere stands for the empty string. *)
Lemma get_var_lookup_order name st :
  default "" (get_var name st) = lookup_order name st.
Proof.
  unfold get_var, lookup_order, special_value, store_value, getenv.
  repeat (case_bool_decide; [done|]).
  rewrite find_var_list_find.
  destruct (list_find _ (vars st)) as [[i w]|] eqn:E; simpl; [|done].
  apply list_find_Some in E as (Hi & _ & _). by rewrite Hi.
Qed.
End Lookup.

(** ** The fuel of [expand_loop] *)

Section Fuel.
Context (k : kernel) (st : shell).
Local Opaque MAX_LINE.

Lemma take_while_rest_length keep room q :
  (String.length (take_while keep room q).2 <= String.length q)%nat.
Proof.
  revert room. induction q as [|c q IH]; intros [|room]; try (cbn; lia).
  cbn. destruct (keep c); [|cbn; lia].
  specialize (IH room). destruct (take_while keep room q). cbn in *. lia.
Qed.

Lemma str_tail_length q : (String.length (str_tail q) <= String.length q)%nat.
Proof. destruct q; simpl; lia. Qed.

Local Arguments take_while : simpl never.
Local Arguments emit : simpl never.
Local Arguments get_var : simpl never.

(** Any two amounts of fuel that cover the text give the same result: the
    loop ends because the word ends (or the buffer is full), never because
    the fuel is spent. *)
Lemma expand_loop_fuel fuel : forall fuel' prev p out,
  (String.length p <= fuel)%nat -> (String.length p <= fuel')%nat ->
  expand_loop fuel k st prev p out = expand_loop fuel' k st prev p out.
Proof.
  induction fuel as [|fuel IH]; intros fuel' prev p out H H'.
  - destruct p; [|simpl in H; lia]. by destruct fuel'.
  - destruct p as [|c p]; [by destruct fuel'|].
    destruct fuel' as [|fuel']; [simpl in H'; lia|].
    simpl in H, H'. cbn [expand_loop].
    destruct (MAX_LINE - 1 <=? String.length out)%nat; [done|].
    destruct (Ascii.eqb c "$").
    + destruct (starts_with "{" p).
      * pose proof (take_while_rest_length
                      (fun d => negb (Ascii.eqb d "}")) 255 (str_tail p)) as Hr.
        pose proof (str_tail_length p) as Ht.
        destruct (take_while _ 255 (str_tail p)) as [varname r].
        cbn [snd] in Hr. pose proof (str_tail_length r) as Ht'.
        apply IH; destruct (starts_with "}" r); lia.
      * pose proof (take_while_rest_length is_name_char 255 p) as Hr.
        destruct (take_while _ 255 p) as [varname r]. cbn [snd] in Hr.
        apply IH; lia.
    + destruct (Ascii.eqb c "~" && _).
      * destruct (starts_with "/" p || bool_decide (p = "")).
        -- apply IH; lia.
        -- pose proof (take_while_rest_length
                         (fun d => negb (Ascii.eqb d "/")) 255 p) as Hr.
           destruct (take_while _ 255 p) as [username r]. cbn [snd] in Hr.
           apply IH; lia.
      * apply IH; lia.
Qed.

(** [expand_word] is the loop run with any fuel that covers the word. *)
Lemma expand_word_fuel fuel word :
  (String.length word <= fuel)%nat ->
  expand_word k st word = expand_loop fuel k st None word "".
Proof. intros H. unfold expand_word. by apply expand_loop_fuel. Qed.
End Fuel.

(** ** Expansion of a word *)

Section Expansion.
Context (k : kernel) (st : shell).
Implicit Types (p out pre post name : string) (prev : option ascii).
Local Opaque MAX_LINE.

Lemma emit_full out val :
  (MAX_LINE - 1 <= String.length out)%nat -> emit out val = out.
Proof.
  intros H. unfold emit.
  replace (MAX_LINE - 1 - String.length out)%nat with 0%nat by lia.
  by rewrite str_take_0, str_app_nil_r.
Qed.

Lemma emit_nil out : emit out "" = out.
Proof.
  unfold emit. destruct (MAX_LINE - 1 - String.length out)%nat;
    simpl; apply str_app_nil_r.
Qed.

Lemma emit_empty s : emit "" s = str_take (MAX_LINE - 1) s.
Proof. unfold emit. simpl. by rewrite Nat.sub_0_r. Qed.

Lemma emit_emit a b c : emit (emit a b) c = emit a (b +:+ c).
Proof.
  unfold emit. rewrite str_app_assoc. f_equal.
  rewrite str_take_app. f_equal. f_equal.
  rewrite str_length_app, !str_take_length. lia.
Qed.

Lemma emit_char out c s :
  (String.length out < MAX_LINE - 1)%nat ->
  emit (out +:+ String c "") s = emit out (String c s).
Proof.
  intros H. unfold emit. rewrite str_app_assoc, str_length_app. simpl.
  destruct (MAX_LINE - 1 - String.length out)%nat as [|n] eqn:E; [lia|].
  simpl. do 3 f_equal. lia.
Qed.

Lemma expand_loop_full fuel prev p out :
  (MAX_LINE - 1 <= String.length out)%nat ->
  expand_loop fuel k st prev p out = out.
Proof.
  intros H. destruct fuel as [|fuel], p as [|c p]; simpl; try done.
  apply Nat.leb_le in H. by rewrite H.
Qed.

(** Bytes that are neither [$] nor [~] are copied one by one. *)
Lemma expand_loop_plain_prefix pre : forall fuel prev out q,
  plain pre = true ->
  (String.length pre <= fuel)%nat ->
  exists prev',
    expand_loop fuel k st prev (pre +:+ q) out
    = expand_loop (fuel - String.length pre) k st prev' q (emit out pre).
Proof.
  induction pre as [|c pre IH]; intros fuel prev out q Hp Hf.
  - exists prev. rewrite str_app_nil_l. simpl. rewrite Nat.sub_0_r.
    by rewrite emit_nil.
  - unfold plain in Hp. simpl in Hp.
    apply andb_prop in Hp as [Hc Hp]. apply andb_prop in Hc as [Hd Ht].
    apply negb_true_iff in Hd, Ht.
    destruct fuel as [|fuel]; [simpl in Hf; lia|].
    destruct (Nat.leb_spec (MAX_LINE - 1) (String.length out)) as [Hfull|Hroom].
    + exists prev. rewrite !expand_loop_full; try done.
      * by rewrite emit_full.
      * by rewrite emit_full.
    + rewrite str_app_cons. simpl expand_loop.
      apply Nat.leb_gt in Hroom as Hroom'. rewrite Hroom', Hd, Ht. simpl.
      destruct (IH fuel (Some c) (out +:+ String c "") q Hp) as [prev' E];
        [simpl in Hf; lia|].
      exists prev'. rewrite E. by rewrite emit_char.
Qed.

Lemma expand_loop_plain p fuel prev out :
  plain p = true -> (String.length p <= fuel)%nat ->
  expand_loop fuel k st prev p out = emit out p.
Proof.
  intros Hp Hf.
  destruct (expand_loop_plain_prefix p fuel prev out "" Hp Hf) as [prev' E].
  rewrite str_app_nil_r in E. rewrite E.
  by destruct (fuel - String.length p)%nat.
Qed.

Lemma take_while_all keep name rest : forall room,
  str_forall keep name = true ->
  (String.length name <= room)%nat ->
  match rest with "" => true | String c _ => negb (keep c) end = true ->
  take_while keep room (name +:+ rest) = (name, rest).
Proof.
  induction name as [|c name IH]; intros room Hn Hl Hr.
  - rewrite str_app_nil_l. destruct room, rest as [|d rest]; simpl; try done.
    apply negb_true_iff in Hr. by rewrite Hr.
  - simpl in Hn. apply andb_prop in Hn as [Hc Hn].
    destruct room as [|room]; [simpl in Hl; lia|].
    rewrite str_app_cons. simpl. rewrite Hc.
    rewrite IH; [done|done|simpl in Hl; lia|done].
Qed.

Lemma is_name_char_not_brace c :
  is_name_char c = true -> Ascii.eqb c "{" = false /\ Ascii.eqb c "}" = false.
Proof.
  intros H. destruct (Ascii.eqb_spec c "{") as [->|_];
    [vm_compute in H; discriminate|].
  destruct (Ascii.eqb_spec c "}") as [->|_];
    [vm_compute in H; discriminate|done].
Qed.

Lemma name_no_brace name :
  str_forall is_name_char name = true ->
  str_forall (fun d => negb (Ascii.eqb d "}")) name = true.
Proof.
  induction name as [|c name IH]; [done|]. simpl. intros H.
  apply andb_prop in H as [Hc Hn].
  apply is_name_char_not_brace in Hc as [_ ->]. simpl. auto.
Qed.

Local Arguments take_while : simpl never.
Local Arguments get_var : simpl never.
Local Arguments emit : simpl never.

(** One turn of the loop at [$NAME]. *)
Lemma expand_loop_dollar fuel prev name post out :
  is_name name = true -> name_ends post = true ->
  (String.length out < MAX_LINE - 1)%nat ->
  exists prev',
    expand_loop (S fuel) k st prev ("$" +:+ name +:+ post) out
    = expand_loop fuel k st prev' post
        (emit out (default "" (get_var name st))).
Proof.
  intros Hname Hpost Hroom. unfold is_name in Hname.
  apply andb_prop in Hname as [Hname Hlen].
  apply andb_prop in Hname as [Hne Hchars].
  apply Nat.leb_le in Hlen. apply Nat.leb_gt in Hroom.
  rewrite str_app_cons, str_app_nil_l. simpl expand_loop.
  rewrite Hroom. simpl.
  assert (starts_with "{" (name +:+ post) = false) as ->.
  { destruct name as [|c name]; [done|]. simpl in Hchars.
    apply andb_prop in Hchars as [Hc _].
    rewrite str_app_cons. simpl. by apply is_name_char_not_brace in Hc as [-> _]. }
  rewrite (take_while_all is_name_char name post 255); try done.
  eauto.
Qed.

(** One turn of the loop at [${NAME}]. *)
Lemma expand_loop_braced fuel prev name post out :
  is_name name = true ->
  (String.length out < MAX_LINE - 1)%nat ->
  exists prev',
    expand_loop (S fuel) k st prev ("${" +:+ name +:+ "}" +:+ post) out
    = expand_loop fuel k st prev' post
        (emit out (default "" (get_var name st))).
Proof.
  intros Hname Hroom. unfold is_name in Hname.
  apply andb_prop in Hname as [Hname Hlen].
  apply andb_prop in Hname as [Hne Hchars].
  apply Nat.leb_le in Hlen. apply Nat.leb_gt in Hroom.
  rewrite !str_app_cons, !str_app_nil_l. simpl expand_loop.
  rewrite Hroom. simpl.
  rewrite take_while_all; try done.
  - simpl. eauto.
  - by apply name_no_brace.
Qed.
End Expansion.

Section ParameterExpansion.
Context (k : kernel) (st : shell).
Local Opaque MAX_LINE.
Local Arguments emit : simpl never.

(** A word made of plain text, one expansion [item] and plain text, given
    what one turn of the loop does at [item]. *)
Lemma expand_word_item pre item post name :
  plain pre = true -> plain post = true ->
  (1 <= String.length item)%nat ->
  (forall fuel prev out,
      (String.length out < MAX_LINE - 1)%nat ->
      exists prev',
        expand_loop (S fuel) k st prev (item +:+ post) out
        = expand_loop fuel k st prev' post
            (emit out (default "" (get_var name st)))) ->
  expand_word k st (pre +:+ item +:+ post)
  = str_take (MAX_LINE - 1) (pre +:+ lookup_order name st +:+ post).
Proof.
  intros Hpre Hpost Hitem Hturn. unfold expand_word.
  rewrite <- emit_empty, <- emit_emit, <- emit_emit.
  rewrite !str_length_app.
  destruct (expand_loop_plain_prefix k st pre
    (String.length pre + (String.length item + String.length post))
    None "" (item +:+ post) Hpre) as [prev1 ->]; [lia|].
  destruct (Nat.leb_spec (MAX_LINE - 1) (String.length (emit "" pre)))
    as [Hfull|Hroom].
  - rewrite expand_loop_full by done.
    rewrite (emit_full (emit "" pre) (lookup_order name st)) by done.
    by rewrite (emit_full (emit "" pre) post).
  - replace (String.length pre + (String.length item + String.length post)
      - String.length pre)%nat
      with (S (String.length item - 1 + String.length post)) by lia.
    destruct (Hturn (String.length item - 1 + String.length post)%nat
      prev1 (emit "" pre) Hroom) as [prev2 ->].
    rewrite expand_loop_plain by (done || lia).
    by rewrite get_var_lookup_order.
Qed.
End ParameterExpansion.

(** Where the name the scan takes is the name that was written (the text
    after it does not start with a byte the scan accepts, and the text
    around the expansion holds no [$] or [~]): a parameter expansion,
    written [$NAME] or [${NAME}], is replaced by the value found first among
    the special parameters, then in the variable store, then in the
    environment, and by nothing when the name is found in none of them; the
    text around it is kept, and the word is cut only by the size of the
    expansion buffer. *)
Theorem parameter_expansion_lookup (k : kernel) (st : shell)
    (pre name post : string) :
  plain pre = true -> plain post = true -> is_name name = true ->
  (name_ends post = true ->
   expand_word k st (pre +:+ "$" +:+ name +:+ post)
   = str_take (MAX_LINE - 1) (pre +:+ lookup_order name st +:+ post)) /\
  expand_word k st (pre +:+ "${" +:+ name +:+ "}" +:+ post)
  = str_take (MAX_LINE - 1) (pre +:+ lookup_order name st +:+ post).
Proof.
  intros Hpre Hpost Hname. split.
  - intros Hends.
    rewrite <- (str_app_assoc "$" name post).
    apply expand_word_item; try done.
    + rewrite str_length_app. simpl. lia.
    + intros fuel prev out Hroom. rewrite str_app_assoc.
      by apply expand_loop_dollar.
  - replace ("${" +:+ name +:+ "}" +:+ post)
      with (("${" +:+ name +:+ "}") +:+ post)
      by (by rewrite !str_app_assoc).
    apply expand_word_item; try done.
    + rewrite str_length_app. simpl. lia.
    + intros fuel prev out Hroom. rewrite !str_app_assoc.
      by apply expand_loop_braced.
Qed.

(** FOO is in the store and in the environment: the store wins. *)
Lemma parameter_expansion_lookup_witness :
  let st := set_var "FOO" "bar" false
              (initial_shell false 42 (<["FOO" := "env"]> (<["HOME" := "/h"]> ∅))) in
  expand_word (sample_kernel 1 0) st "a=$FOO.c" = "a=bar.c" /\
  expand_word (sample_kernel 1 0) st "a=${FOO}.c" = "a=bar.c".
Proof.
  intros st.
  destruct (parameter_expansion_lookup (sample_kernel 1 0) st "a=" "FOO" ".c")
    as [H1 H2]; [reflexivity..|].
  split; [exact (H1 eq_refl)|exact H2].
Defined.

(** After a bare [$] the scan takes every byte that is a letter, a digit,
    [_], [?], [$] or [!]: a second expansion written against the first is
    read as part of its name. *)
Lemma adjacent_expansions_read_as_one_name (k : kernel) (st : shell)
    (a b : string) :
  is_name (a +:+ "$" +:+ b) = true ->
  expand_word k st ("$" +:+ a +:+ "$" +:+ b)
  = str_take (MAX_LINE - 1) (lookup_order (a +:+ "$" +:+ b) st).
Proof.
  intros Hname.
  destruct (parameter_expansion_lookup k st "" (a +:+ "$" +:+ b) ""
              eq_refl eq_refl Hname) as [H _].
  specialize (H eq_refl).
  rewrite !str_app_nil_l, !str_app_nil_r in H. exact H.
Qed.

(** C9 (the code departs from the claim). The scan of an unbraced name
    accepts [?], [$] and [!] at every position, not only as the one-byte
    names of the special parameters. So [$FOO$BAR] looks up the one name
    [FOO$BAR] and not FOO and BAR, and [$?x] and [$$x] look up the names
    [?x] and [$x] and not the special parameters: each expands to nothing,
    although every name written has a value in the lookup order. The braced
    forms give the values. *)
Theorem name_scan_swallows_special_bytes :
  let k := sample_kernel 1 0 in
  let st := var_run [Assign "FOO" "a"; Assign "BAR" "b"]
              (set_last_status 7 (initial_shell false 42 ∅)) in
  (lookup_order "FOO" st = "a" /\ lookup_order "BAR" st = "b" /\
   expand_word k st "$FOO$BAR" = "" /\
   expand_word k st "${FOO}${BAR}" = "ab") /\
  (lookup_order "?" st = "7" /\
   expand_word k st "$?x" = "" /\ expand_word k st "${?}x" = "7x") /\
  (lookup_order "$" st = "42" /\
   expand_word k st "$$x" = "" /\ expand_word k st "${$}x" = "42x").
Proof. vm_compute. repeat split. Qed.

(** The three tiers and the empty result, on a sample shell. *)
Example lookup_order_tiers :
  let st := set_var "FOO" "bar" false
              (initial_shell false 42 (<["FOO" := "env"]> (<["HOME" := "/h"]> ∅))) in
  expand_word (sample_kernel 1 0) st "[$?|$$|$!|$FOO|${HOME}|$NOPE|${NOPE}]"
  = "[0|42|0|bar|/h||]".
Proof. vm_compute. reflexivity. Qed.

(** ** Tokenizer *)

Section Tokenizer.
Implicit Types (p w tok rest line : string) (ws : list string).

Lemma tokenize_loop_nil room : tokenize_loop room "" = [].
Proof. by destruct room. Qed.

Lemma skip_spaces_suffix p : exists sp, p = sp +:+ skip_spaces p.
Proof.
  induction p as [|c p [sp IH]]; [by exists ""|]. simpl.
  destruct (isspace c).
  - exists (String c sp). by rewrite str_app_cons, <- IH.
  - by exists "".
Qed.

Lemma skip_spaces_head p c p' : skip_spaces p = String c p' -> isspace c = false.
Proof.
  induction p as [|d p IH]; simpl; [done|].
  destruct (isspace d) eqn:E; [done|]. by intros [= -> ->].
Qed.

Lemma quote_open_skip_spaces p :
  quote_open_at_end false p = quote_open_at_end false (skip_spaces p).
Proof.
  induction p as [|c p IH]; [done|]. simpl.
  destruct (isspace c) eqn:E; simpl; [done|]. by rewrite E.
Qed.

(** What the inner loop leaves: the token and the rest make up the text,
    and a rest that is not empty starts with the white space that closed
    the token, outside any quote. *)
Lemma scan_token_split p : forall q tok rest,
  scan_token q p = (tok, rest) ->
  p = tok +:+ rest /\
  match rest with
  | "" => True
  | String d rest' =>
      isspace d = true /\ quote_open_at_end q p = quote_open_at_end false rest'
  end.
Proof.
  induction p as [|c p IH]; intros q tok rest H; simpl in H.
  - by injection H as <- <-.
  - destruct (q || negb (isspace c)) eqn:E.
    + destruct (scan_token (if is_quote c then negb q else q) p)
        as [tok' rest'] eqn:Hs.
      injection H as <- <-.
      destruct (IH _ _ _ Hs) as [-> Hrest]. split; [done|].
      destruct rest' as [|d rest']; [done|].
      destruct Hrest as [Hd Hq]. split; [done|].
      simpl. by rewrite E.
    + injection H as <- <-. split; [done|].
      apply orb_false_iff in E as [-> E]. apply negb_false_iff in E.
      split; [done|]. simpl. by rewrite E.
Qed.

(** A scan that runs into the end of the line inside a quote has met a
    quote character. *)
Lemma scan_token_open_quote p : forall q tok,
  scan_token q p = (tok, "") ->
  quote_open_at_end q p = true ->
  q = true \/ str_forall (fun c => negb (is_quote c)) tok = false.
Proof.
  induction p as [|c p IH]; intros q tok H Hq; simpl in H, Hq.
  - left. done.
  - destruct (q || negb (isspace c)) eqn:E; [|done].
    destruct (scan_token (if is_quote c then negb q else q) p)
      as [tok' rest'] eqn:Hs.
    injection H as <- ->. simpl.
    destruct (is_quote c) eqn:Ec; [by right|]. simpl.
    destruct (IH _ _ Hs Hq) as [->|Hr]; [by left|by right].
Qed.

Lemma tokenize_loop_open_quote room : forall p,
  quote_open_at_end false p = true ->
  (length (tokenize_loop room p) < room)%nat ->
  exists toks tok pre,
    tokenize_loop room p = toks ++ [tok] /\
    p = pre +:+ tok /\
    str_forall (fun c => negb (is_quote c)) tok = false.
Proof.
  induction room as [|room IH]; intros p Hq Hlen; [simpl in Hlen; lia|].
  destruct (skip_spaces_suffix p) as [sp Hsp].
  rewrite quote_open_skip_spaces in Hq.
  cbn [tokenize_loop] in Hlen |- *.
  destruct (skip_spaces p) as [|c p'] eqn:Hskip; [done|].
  destruct (scan_token false (String c p')) as [tok rest] eqn:Hscan.
  destruct (scan_token_split _ _ _ _ Hscan) as [Hp Hrest].
  destruct rest as [|d rest].
  - destruct (scan_token_open_quote _ _ _ Hscan Hq) as [|Htok]; [done|].
    exists [], tok, sp. cbn [end_token]. rewrite tokenize_loop_nil.
    rewrite str_app_nil_r in Hp. by rewrite Hsp, Hp.
  - destruct Hrest as [Hd Hq']. rewrite Hq' in Hq.
    cbn [end_token length] in Hlen |- *.
    destruct (IH rest Hq) as (toks & tok' & pre & -> & -> & Htok); [lia|].
    exists (tok :: toks), tok', (sp +:+ tok +:+ String d pre).
    split; [done|]. split; [|done].
    rewrite Hsp, Hp. by rewrite !str_app_assoc, str_app_cons.
Qed.

Lemma scan_token_word w rest :
  str_forall (fun c => negb (isspace c) && negb (is_quote c)) w = true ->
  match rest with "" => true | String d _ => isspace d end = true ->
  scan_token false (w +:+ rest) = (w, rest).
Proof.
  intros Hw Hrest. induction w as [|c w IH].
  - rewrite str_app_nil_l. destruct rest as [|d rest]; [done|].
    simpl. by rewrite Hrest.
  - simpl in Hw. apply andb_prop in Hw as [Hc Hw].
    apply andb_prop in Hc as [Hs Hq]. apply negb_true_iff in Hq.
    rewrite str_app_cons. simpl. rewrite Hs, Hq. simpl.
    by rewrite (IH Hw).
Qed.

Lemma tokenize_loop_word room w rest :
  is_word w = true ->
  match rest with "" => true | String d _ => isspace d end = true ->
  tokenize_loop (S room) (w +:+ rest) = w :: tokenize_loop room (end_token rest).
Proof.
  intros Hw Hrest. unfold is_word in Hw.
  apply andb_prop in Hw as [Hne Hw].
  destruct w as [|c w]; [done|].
  pose proof (scan_token_word (String c w) rest Hw Hrest) as Hscan.
  simpl in Hw. apply andb_prop in Hw as [Hc _].
  apply andb_prop in Hc as [Hs _]. apply negb_true_iff in Hs.
  rewrite str_app_cons in Hscan |- *.
  cbn [tokenize_loop skip_spaces]. rewrite Hs. by rewrite Hscan.
Qed.

Lemma tokenize_loop_join ws : forall room,
  Forall (fun w => is_word w = true) ws ->
  (length ws <= room)%nat ->
  tokenize_loop room (join_words ws) = ws.
Proof.
  induction ws as [|w ws IH]; intros room Hws Hlen.
  - apply tokenize_loop_nil.
  - apply Forall_cons in Hws as [Hw Hws].
    destruct room as [|room]; [simpl in Hlen; lia|].
    destruct ws as [|w' ws].
    + change (join_words [w]) with w.
      replace (tokenize_loop (S room) w)
        with (tokenize_loop (S room) (w +:+ ""))
        by (by rewrite str_app_nil_r).
      rewrite tokenize_loop_word by done. cbn [end_token].
      by rewrite tokenize_loop_nil.
    + change (join_words (w :: w' :: ws))
        with (w +:+ String " " (join_words (w' :: ws))).
      rewrite tokenize_loop_word by done. simpl end_token.
      rewrite IH; [done|done|simpl in Hlen |- *; lia].
Qed.
(** *** The tokens as pieces between unquoted white space *)

Lemma is_quote_not_space q : is_quote q = true -> isspace q = false.
Proof. by destruct q as [[] [] [] [] [] [] [] []]. Qed.

Lemma quote_flip q c : (if is_quote c then negb q else q) = xorb q (is_quote c).
Proof. by destruct q, (is_quote c). Qed.

Lemma fields_skip_spaces p :
  unquoted_fields "" false (skip_spaces p) = unquoted_fields "" false p.
Proof.
  induction p as [|c p IH]; [done|].
  cbn [skip_spaces unquoted_fields]. destruct (isspace c) eqn:E.
  - rewrite IH. done.
  - cbn [unquoted_fields]. by rewrite E.
Qed.

(** One run of the inner loop reads one piece. *)
Lemma fields_scan p : forall cur q tok rest,
  scan_token q p = (tok, rest) ->
  unquoted_fields cur q p
  = (if bool_decide (cur +:+ tok = "") then [] else [cur +:+ tok])
    ++ match rest with
       | "" => []
       | String _ rest' => unquoted_fields "" false rest'
       end.
Proof.
  induction p as [|c p IH]; intros cur q tok rest H; cbn [scan_token] in H.
  - injection H as <- <-. cbn [unquoted_fields].
    by rewrite str_app_nil_r, app_nil_r.
  - cbn [unquoted_fields].
    assert (isspace c && negb q = negb (q || negb (isspace c))) as ->
      by (by destruct q, (isspace c)).
    destruct (q || negb (isspace c)); cbn [negb].
    + destruct (scan_token _ p) as [tok' rest'] eqn:Hs. injection H as <- <-.
      rewrite quote_flip in Hs. rewrite (IH _ _ _ _ Hs).
      by rewrite str_app_assoc, str_app_cons, str_app_nil_l.
    + injection H as <- <-. by rewrite str_app_nil_r.
Qed.

Lemma tokenize_loop_fields room : forall p,
  tokenize_loop room p = take room (unquoted_fields "" false p).
Proof.
  induction room as [|room IH]; intros p; [done|].
  cbn [tokenize_loop]. rewrite <- (fields_skip_spaces p).
  destruct (skip_spaces p) as [|c p'] eqn:Hskip; [done|].
  pose proof (skip_spaces_head _ _ _ Hskip) as Hc.
  destruct (scan_token false (String c p')) as [tok rest] eqn:Hscan.
  rewrite (fields_scan _ "" false _ _ Hscan), str_app_nil_l.
  assert (tok <> "") as Htok.
  { cbn [scan_token] in Hscan. rewrite Hc in Hscan. cbn [orb negb] in Hscan.
    destruct (scan_token _ p') as [tok' rest']. by injection Hscan as <- _. }
  rewrite bool_decide_eq_false_2 by done. cbn [app take]. f_equal.
  rewrite IH. by destruct rest.
Qed.




(** The flag the inner loop holds at the end of the line is that state. *)
Lemma unterminated_quote_at_end p : forall q,
  quote_open_at_end q p = quoted_at_end q p.
Proof.
  induction p as [|c p IH]; intros q; [done|].
  cbn [quote_open_at_end quoted_at_end].
  destruct (q || negb (isspace c)) eqn:E.
  - by rewrite quote_flip, IH.
  - apply orb_false_iff in E as [-> E]. apply negb_false_iff in E.
    rewrite IH. destruct (is_quote c) eqn:X; [|done].
    apply is_quote_not_space in X. congruence.
Qed.

End Tokenizer.

(** C2, as the code has it. For every line, the tokens are the pieces of
    the line between unquoted white-space bytes, the first 127 of them:
    white space outside quotes is the only thing that ends a token, and an
    operator character is a byte like any other. In particular words set
    apart by single blanks come back one token each, whatever characters
    they are made of: an operator is a token of its own when blanks surround
    it ([ls | wc] gives [ls], [|], [wc], and [>>] between blanks stays one
    token); written against a word it stays inside the word's token. *)
Theorem tokenize_splits_at_blanks_only :
  (forall line,
      tokenize line = take (MAX_ARGS - 1) (unquoted_fields "" false line)) /\
  (forall ws,
      Forall (fun w => is_word w = true) ws ->
      (length ws <= MAX_ARGS - 1)%nat ->
      tokenize (join_words ws) = ws).
Proof.
  split.
  - intros line. apply tokenize_loop_fields.
  - intros ws Hws Hlen. by apply tokenize_loop_join.
Qed.

(** Operators between blanks, the same text without blanks, and a line with
    quotes, tabs and white space at both ends. *)
Lemma tokenize_splits_at_blanks_only_witness :
  tokenize "ls | wc -l >> out" = ["ls"; "|"; "wc"; "-l"; ">>"; "out"] /\
  tokenize "ls|wc>>out" = ["ls|wc>>out"] /\
  tokenize (String "009" " echo  'a | b'>x   c ")
  = take (MAX_ARGS - 1)
      (unquoted_fields "" false (String "009" " echo  'a | b'>x   c ")).
Proof.
  split; [|split].
  - apply (proj2 tokenize_splits_at_blanks_only
             ["ls"; "|"; "wc"; "-l"; ">>"; "out"]).
    + repeat constructor.
    + vm_compute. lia.
  - apply (proj2 tokenize_splits_at_blanks_only ["ls|wc>>out"]).
    + repeat constructor.
    + vm_compute. lia.
  - apply (proj1 tokenize_splits_at_blanks_only).
Defined.

(** The pieces of that line. *)
Example unquoted_fields_sample :
  unquoted_fields "" false (String "009" " echo  'a | b'>x   c ")
  = ["echo"; "'a | b'>x"; "c"].
Proof. reflexivity. Qed.

(** C2 as stated fails: [ls|wc] is one token, not three. *)
Lemma operator_inside_word_counterexample :
  tokenize "ls|wc" = ["ls|wc"] /\ tokenize "ls|wc" <> ["ls"; "|"; "wc"].
Proof. split; [reflexivity|discriminate]. Qed.



(** The state is the code's own: a quote character of the other kind closes
    a quote, and an apostrophe opens one. *)
Example quote_kinds_are_not_told_apart :
  quoted_at_end false (String "'" (String "a" (String "034" " b"))) = false /\
  tokenize ("echo " +:+ String "'" (String "a" (String "034" " b")))
  = ["echo"; String "'" (String "a" (String "034" "")); "b"] /\
  quoted_at_end false (String "034" ("it's" +:+ String "034" "")) = true /\
  tokenize ("echo " +:+ String "034" ("it's x" +:+ String "034" " y"))
  = ["echo"; String "034" "it's"; String "x" (String "034" " y")].
Proof. vm_compute. repeat split. Qed.

(** An assignment with an open quote runs no command and leaves the status
    as it was; the variable holds the text with its quote. *)
Example open_quote_in_assignment :
  match main_step (sample_kernel 500 0) "A='x y"
          (set_last_status 7 (initial_shell false 1 ∅)) with
  | Returns _ st =>
      last_status st = 7 /\ get_var "A" st = Some "'x y" /\ sys_term st = "TTT"
  | _ => False
  end.
Proof. vm_compute. repeat split. Qed.


(** ** Wait statuses *)

Section WaitStatus.
Implicit Types (t : termination).

Lemma exited_status code :
  0 <= code <= 255 ->
  WIFSTOPPED (wait_status (Exited code)) = false /\
  WIFEXITED (wait_status (Exited code)) = true /\
  WEXITSTATUS (wait_status (Exited code)) = code.
Proof.
  intros H. unfold WIFSTOPPED, WIFEXITED, WEXITSTATUS, wait_status.
  change 255 with (Z.ones 8). change 127 with (Z.ones 7).
  rewrite !Z.land_ones, Z.shiftr_shiftl_l, Z.shiftl_mul_pow2 by lia.
  change (8 - 8) with 0. rewrite Z.shiftl_0_r.
  change (2 ^ 8) with 256. change (2 ^ 7) with 128.
  replace ((code * 256) mod 256) with 0
    by (symmetry; apply Z.mod_mul; lia).
  replace ((code * 256) mod 128) with 0
    by (symmetry; replace (code * 256) with (code * 2 * 128) by lia;
        apply Z.mod_mul; lia).
  rewrite Z.mod_small by lia. done.
Qed.

Lemma killed_status sig core :
  1 <= sig <= 126 ->
  WIFSTOPPED (wait_status (Killed sig core)) = false /\
  WIFEXITED (wait_status (Killed sig core)) = false /\
  WIFSIGNALED (wait_status (Killed sig core)) = true /\
  WTERMSIG (wait_status (Killed sig core)) = sig.
Proof.
  intros H.
  assert (Hall : forallb (fun s =>
            forallb (fun c =>
              negb (WIFSTOPPED (wait_status (Killed s c)))
              && negb (WIFEXITED (wait_status (Killed s c)))
              && WIFSIGNALED (wait_status (Killed s c))
              && (WTERMSIG (wait_status (Killed s c)) =? s)) [false; true])
            (seqZ 1 126) = true) by (vm_compute; reflexivity).
  rewrite forallb_forall in Hall.
  specialize (Hall sig). rewrite <- list_elem_of_In, elem_of_seqZ in Hall.
  specialize (Hall ltac:(lia)). rewrite forallb_forall in Hall.
  specialize (Hall core).
  assert (In core [false; true]) as Hin by (destruct core; simpl; auto).
  specialize (Hall Hin).
  repeat (apply andb_prop in Hall as [Hall ?]).
  apply negb_true_iff in Hall. repeat split; try done.
  - by apply negb_true_iff.
  - by apply Z.eqb_eq.
Qed.

(** The status a terminated last child leaves in the loop. *)
Lemma termination_decoded t status :
  termination_ok t ->
  WIFSTOPPED (wait_status t) = false /\
  (if WIFEXITED (wait_status t) then WEXITSTATUS (wait_status t)
   else if WIFSIGNALED (wait_status t) then 128 + WTERMSIG (wait_status t)
   else status) = exit_status t.
Proof.
  destruct t as [code|sig core]; intros H.
  - destruct (exited_status code H) as (-> & -> & ->). done.
  - destruct (killed_status sig core H) as (-> & -> & -> & ->). done.
Qed.
End WaitStatus.

(** ** Executor *)

Section Executor.
Context (k : kernel).
Implicit Types (pl : pipeline_t) (st : shell) (pids : list Z).

(** Without a stop the wait loop runs to its end, and the status is taken
    from the last child alone. *)
Lemma wait_children_no_stop pgid pids : forall status st,
  Forall (fun pid => WIFSTOPPED (k_wait k pid) = false) pids ->
  wait_children k pgid pids status st
  = inr match last pids with
        | None => status
        | Some pid =>
            let wstatus := k_wait k pid in
            if WIFEXITED wstatus then WEXITSTATUS wstatus
            else if WIFSIGNALED wstatus then 128 + WTERMSIG wstatus
            else status
        end.
Proof.
  induction pids as [|pid pids IH]; intros status st Hns; [done|].
  apply Forall_cons in Hns as [Hpid Hns].
  cbn [wait_children]. rewrite Hpid.
  destruct pids as [|pid' pids]; [done|].
  rewrite IH by done. done.
Qed.

Lemma execute_pipeline_general pl st :
  on_general_path pl = true ->
  execute_pipeline k pl st =
    match launch k pl st with
    | Returns (inl _) st1 => Returns 0 st1
    | Returns (inr status) st1 => Returns (apply_negate (pl_negate pl) status) st1
    | Dies st1 => Dies st1
    | Faults => Faults
    end.
Proof.
  unfold on_general_path, execute_pipeline.
  destruct (pl_cmds pl) as [|cmd [|cmd' cmds]]; [done| |done].
  destruct (head (cmd_args cmd)) as [name|]; [|done].
  intros H. apply negb_true_iff in H. by rewrite H.
Qed.
End Executor.

(** When the wait loop itself collects every child, so that the word it
    reads for each pid is the status of that child: on the general path, for
    a foreground pipeline whose children were all forked and all terminate,
    the status [execute_pipeline] holds before it applies [negate] is the
    exit status of the last command, 128 + N when signal N killed it,
    whatever the earlier commands returned. *)
Theorem pipeline_status_is_last_command (k : kernel) (pl : pipeline_t)
    (st : shell) (pids : list Z) (earlier : list termination)
    (final : termination) :
  pl_background pl = false ->
  create_pipes k 0 (length (pl_cmds pl) - 1) = None ->
  fork_children k 0 (length (pl_cmds pl)) = Some pids ->
  k_wait k <$> pids = wait_status <$> (earlier ++ [final]) ->
  Forall termination_ok (earlier ++ [final]) ->
  let st' := set_last_bg_pid (default 0 (head pids)) st in
  launch k pl st = Returns (inr (exit_status final)) st' /\
  (on_general_path pl = true ->
   execute_pipeline k pl st
   = Returns (apply_negate (pl_negate pl) (exit_status final)) st').
Proof.
  intros Hfg Hpipes Hfork Hwait Hok st'.
  assert (launch k pl st = Returns (inr (exit_status final)) st') as Hlaunch.
  { unfold launch. rewrite Hpipes, Hfork, Hfg.
    assert (Forall (fun pid => WIFSTOPPED (k_wait k pid) = false) pids) as Hns.
    { apply Forall_forall. intros pid Hpid.
      assert (k_wait k pid ∈ wait_status <$> (earlier ++ [final])) as Hin
        by (rewrite <- Hwait; by apply list_elem_of_fmap_2).
      apply list_elem_of_fmap in Hin as (t & -> & Ht).
      rewrite Forall_forall in Hok.
      by destruct (termination_decoded t 0 (Hok t Ht)). }
    rewrite wait_children_no_stop by done.
    assert (k_wait k <$> last pids = Some (wait_status final)) as Hlast.
    { rewrite <- fmap_last, Hwait, fmap_last, last_snoc. done. }
    destruct (last pids) as [pid|]; [|done].
    injection Hlast as Hlast. cbn zeta. rewrite Hlast.
    rewrite Forall_app, Forall_singleton in Hok. destruct Hok as [_ Hfin].
    destruct (termination_decoded final 0 Hfin) as [_ ->]. done. }
  split; [done|].
  intros Hgen. by rewrite execute_pipeline_general, Hlaunch.
Qed.

(** [false | sleep 9] with the first child exiting 3 and the second killed
    by signal 9: the pipeline's status is 137. *)
Lemma pipeline_status_is_last_command_witness :
  let k := mk_kernel (fun _ => None) (fun i => 500 + Z.of_nat i) ""
             (fun pid => if pid =? 500 then wait_status (Exited 3)
                         else wait_status (Killed 9 false))
             (fun _ => None) (fun _ => false) (fun pat => Some [pat])
             (fun _ => None) (fun _ _ => None) (fun _ => None) in
  let pl := mk_pipeline [mk_command ["false"] []; mk_command ["sleep"; "9"] []]
              false false in
  let st := initial_shell false 1 ∅ in
  execute_pipeline k pl st = Returns 137 (set_last_bg_pid 500 st).
Proof.
  intros k pl st.
  destruct (pipeline_status_is_last_command k pl st [500; 501]
              [Exited 3] (Killed 9 false)) as [_ H].
  - reflexivity.
  - reflexivity.
  - reflexivity.
  - reflexivity.
  - repeat constructor; simpl; lia.
  - apply H. reflexivity.
Defined.

(** The loop decodes whatever word it reads for the last pid. When the
    handler has collected the last child, that is the stale word, and the
    way the child ended plays no part. *)
Lemma launch_reads_last_word (k : kernel) (pl : pipeline_t) (st : shell)
    (pids : list Z) (pid word : Z) :
  pl_background pl = false ->
  create_pipes k 0 (length (pl_cmds pl) - 1) = None ->
  fork_children k 0 (length (pl_cmds pl)) = Some pids ->
  Forall (fun pid => WIFSTOPPED (k_wait k pid) = false) pids ->
  last pids = Some pid -> k_wait k pid = word ->
  launch k pl st
  = Returns (inr (if WIFEXITED word then WEXITSTATUS word
                  else if WIFSIGNALED word then 128 + WTERMSIG word
                  else 0))
      (set_last_bg_pid (default 0 (head pids)) st).
Proof.
  intros Hfg Hpipes Hfork Hns Hlast Hword. unfold launch.
  rewrite Hpipes, Hfork, Hfg, wait_children_no_stop by done.
  rewrite Hlast. cbn zeta. by rewrite Hword.
Qed.

(** C1 (the code departs from the claim). The wait loop calls [waitpid] for
    each child, does not look at what the call returns, and decodes
    [wstatus], which it declared without a value. In an interactive shell
    the SIGCHLD handler collects every child that ends with [waitpid(-1)],
    foreground children included, and nothing blocks the signal during the
    loop. For [sleep 1 | ./exit3], when the handler has collected the last
    child, the loop's own call fails and leaves the word as it was: the
    pipeline's status is that of the stale word (0 here), however the last
    command ended, and not the 3 it exited with. The handler finds no job
    for the pid and records nothing. *)
Theorem reaped_child_loses_pipeline_status :
  let pl := mk_pipeline [mk_command ["sleep"; "1"] [];
                         mk_command ["./exit3"] []] false false in
  let st := initial_shell true 1 ∅ in
  let children t := [(500, Collected (Exited 0)); (501, Reaped t)] in
  on_general_path pl = true /\
  (forall t,
      sigchld_handler (reaped_events (children t)) st = st /\
      execute_pipeline (racing_kernel 500 (children t) 0) pl st
      = Returns 0 (set_last_bg_pid 500 st)) /\
  reaped_events (children (Exited 3)) = [(501, wait_status (Exited 3))] /\
  exit_status (child_termination (Reaped (Exited 3))) = 3 /\
  execute_pipeline (racing_kernel 500 (children (Exited 3)) 0) pl st
  <> Returns 3 (set_last_bg_pid 500 st).
Proof.
  intros pl st children.
  assert (forall t, execute_pipeline (racing_kernel 500 (children t) 0) pl st
                    = Returns 0 (set_last_bg_pid 500 st)) as Hrun.
  { intros t. rewrite execute_pipeline_general by reflexivity.
    rewrite (launch_reads_last_word _ pl st [500; 501] 501 0);
      [reflexivity..| |reflexivity|reflexivity].
    repeat constructor. }
  split; [reflexivity|]. split; [|split; [reflexivity|split; [reflexivity|]]].
  - intros t. split; [|apply Hrun]. reflexivity.
  - rewrite Hrun. discriminate.
Qed.

(** With the last child collected by the loop itself the same run gives 3. *)
Example collected_child_gives_pipeline_status :
  execute_pipeline
    (racing_kernel 500 [(500, Collected (Exited 0)); (501, Collected (Exited 3))] 0)
    (mk_pipeline [mk_command ["sleep"; "1"] []; mk_command ["./exit3"] []]
       false false)
    (initial_shell true 1 ∅)
  = Returns 3 (set_last_bg_pid 500 (initial_shell true 1 ∅)).
Proof. vm_compute. reflexivity. Qed.

Section Negation.
Context (k : kernel).
Implicit Types (cmds : list command_t) (st : shell).

Lemma launch_negate_irrelevant cmds negate negate' background st :
  launch k (mk_pipeline cmds negate background) st
  = launch k (mk_pipeline cmds negate' background) st.
Proof. reflexivity. Qed.

(** A launch in the background returns 0 at once. *)
Lemma launch_background cmds negate st status st' :
  launch k (mk_pipeline cmds negate true) st = Returns status st' ->
  status = inl ().
Proof.
  unfold launch. cbn [pl_cmds pl_background].
  destruct (create_pipes _ _ _); [done|].
  destruct (fork_children _ _ _); [|done].
  by intros [= <- _].
Qed.

(** A foreground launch in which no child stops runs to the status of the
    last command. *)
Lemma launch_foreground_no_stop cmds negate st status st' :
  (forall pid, WIFSTOPPED (k_wait k pid) = false) ->
  launch k (mk_pipeline cmds negate false) st = Returns status st' ->
  exists s, status = inr s.
Proof.
  intros Hns. unfold launch. cbn [pl_cmds pl_background].
  destruct (create_pipes _ _ _); [done|].
  destruct (fork_children _ _ _) as [pids|]; [|done].
  rewrite wait_children_no_stop by (apply Forall_forall; auto).
  intros [= <- _]. eauto.
Qed.
End Negation.

(** C7, as the code has it. For a pipeline that completes in the
    foreground (a builtin on the fast path, or a launch in which no child
    stops), the status returned with [negate] set is C's [!] of the status
    returned without it: 0 for every non-zero status, 1 for 0. A pipeline
    launched in the background returns 0 whether [negate] is set or not. *)
Theorem negate_inverts_completed_foreground (k : kernel)
    (cmds : list command_t) (st : shell) :
  cmds <> [] ->
  ((forall pid, WIFSTOPPED (k_wait k pid) = false) ->
   execute_pipeline k (mk_pipeline cmds true false) st
   = negated (execute_pipeline k (mk_pipeline cmds false false) st)) /\
  (forall s, lnot s = if decide (s = 0) then 1 else 0) /\
  (execute_pipeline k (mk_pipeline cmds true true) st
   = execute_pipeline k (mk_pipeline cmds false true) st /\
   forall status st',
     execute_pipeline k (mk_pipeline cmds true true) st = Returns status st' ->
     status = 0).
Proof.
  intros Hne. split; [|split; [|split]].
  - intros Hns. unfold execute_pipeline. cbn [pl_cmds pl_negate pl_background].
    destruct cmds as [|cmd [|cmd' cmds]]; [done| |].
    + destruct (head (cmd_args cmd)) as [name|]; [|done].
      destruct (is_builtin name); cbn [andb negb].
      * by destruct (run_builtin k name cmd st).
      * rewrite (launch_negate_irrelevant k [cmd] true false).
        destruct (launch k _ st) as [status st'| |] eqn:E; try done.
        destruct (launch_foreground_no_stop k _ _ _ _ _ Hns E) as [s ->]. done.
    + rewrite (launch_negate_irrelevant k (cmd :: cmd' :: cmds) true false).
      destruct (launch k _ st) as [status st'| |] eqn:E; try done.
      destruct (launch_foreground_no_stop k _ _ _ _ _ Hns E) as [s ->]. done.
  - intros s. unfold lnot. destruct (Z.eqb_spec s 0); by case_decide.
  - unfold execute_pipeline. cbn [pl_cmds pl_negate pl_background].
    destruct cmds as [|cmd [|cmd' cmds]]; [done| |].
    + destruct (head (cmd_args cmd)) as [name|]; [|done].
      rewrite andb_false_r.
      rewrite (launch_negate_irrelevant k [cmd] true false).
      destruct (launch k _ st) as [status st'| |] eqn:E; try done.
      by rewrite (launch_background k _ _ _ _ _ E).
    + rewrite (launch_negate_irrelevant k (cmd :: cmd' :: cmds) true false).
      destruct (launch k _ st) as [status st'| |] eqn:E; try done.
      by rewrite (launch_background k _ _ _ _ _ E).
  - intros status st'. unfold execute_pipeline.
    cbn [pl_cmds pl_negate pl_background].
    destruct cmds as [|cmd [|cmd' cmds]]; [done| |].
    + destruct (head (cmd_args cmd)) as [name|]; [|done].
      rewrite andb_false_r.
      destruct (launch k _ st) as [s st1| |] eqn:E; try done.
      rewrite (launch_background k _ _ _ _ _ E). by intros [= <- _].
    + destruct (launch k _ st) as [s st1| |] eqn:E; try done.
      rewrite (launch_background k _ _ _ _ _ E). by intros [= <- _].
Qed.

(** A command that is not found: 127 without [!], 0 with it. *)
Lemma negate_inverts_completed_foreground_witness :
  let k := sample_kernel 500 (wait_status (Exited 127)) in
  let cmds := [mk_command ["nosuchcmd"] []] in
  let st := initial_shell false 1 ∅ in
  execute_pipeline k (mk_pipeline cmds false false) st
  = Returns 127 (set_last_bg_pid 500 st) /\
  execute_pipeline k (mk_pipeline cmds true false) st
  = Returns 0 (set_last_bg_pid 500 st).
Proof.
  intros k cmds st.
  destruct (negate_inverts_completed_foreground k cmds st) as (H & _ & _).
  - discriminate.
  - split; [reflexivity|]. rewrite H; [reflexivity|].
    intros pid. reflexivity.
Defined.

(** C7 as stated fails for a background pipeline: [! sleep 10 &] returns 0,
    the status the same launch has without [!], and not its negation 1. *)
Lemma negate_background_counterexample :
  let k := sample_kernel 500 0 in
  let cmds := [mk_command ["sleep"; "10"] []] in
  let st := initial_shell true 1 ∅ in
  (exists st', execute_pipeline k (mk_pipeline cmds false true) st = Returns 0 st') /\
  (exists st', execute_pipeline k (mk_pipeline cmds true true) st = Returns 0 st') /\
  lnot 0 <> 0 /\
  match main_step k "! sleep 10 &" st with
  | Returns _ st' => last_status st' = 0
  | _ => False
  end.
Proof.
  intros k cmds st. split; [|split; [|split]].
  - eexists. vm_compute. reflexivity.
  - eexists. vm_compute. reflexivity.
  - discriminate.
  - vm_compute. reflexivity.
Qed.

(** C8 (the code departs from the claim). [last_bg_pid] is assigned before
    the test of [pl->background], so a foreground launch overwrites it: after
    [sleep 10 &] (group 400) the parameter [!] expands to 400, and after the
    foreground [ls] (group 500) it expands to 500. *)
Theorem foreground_launch_overwrites_last_bg_pid :
  match main_step (sample_kernel 400 0) "sleep 10 &" (initial_shell true 1 ∅) with
  | Returns _ st1 =>
      expand_word (sample_kernel 400 0) st1 "$!" = "400" /\
      match main_step (sample_kernel 500 0) "ls" st1 with
      | Returns _ st2 =>
          last_bg_pid st2 = 500 /\
          expand_word (sample_kernel 500 0) st2 "$!" = "500"
      | _ => False
      end
  | _ => False
  end.
Proof. vm_compute. repeat split. Qed.

Section StoreInvariant.
Implicit Types (st : shell) (vs : list var_t) (name value : string).

Lemma find_var_Some name vs i :
  find_var name vs = Some i ->
  exists v, vs !! i = Some v /\ var_name v = name.
Proof.
  rewrite find_var_list_find.
  destruct (list_find _ vs) as [[j v]|] eqn:E; [|done].
  intros [= <-]. apply list_find_Some in E as (Hj & Hn & _). eauto.
Qed.

Lemma find_var_None name vs v :
  find_var name vs = None -> v ∈ vs -> var_name v <> name.
Proof.
  rewrite find_var_list_find.
  destruct (list_find _ vs) as [[j w]|] eqn:E; [done|].
  intros _ Hv. apply list_find_None in E. rewrite Forall_forall in E. auto.
Qed.

Lemma names_alter (f : var_t -> var_t) i vs :
  (forall v, var_name (f v) = var_name v) ->
  var_name <$> alter f i vs = var_name <$> vs.
Proof.
  intros Hf. apply list_eq. intros j.
  rewrite !list_lookup_fmap, list_lookup_alter.
  case_decide; [subst j|done].
  destruct (vs !! i) as [v|]; [|done]. simpl. by rewrite Hf.
Qed.

Lemma elem_of_alter (f : var_t -> var_t) i vs w :
  w ∈ alter f i vs ->
  (exists v, vs !! i = Some v /\ w = f v) \/
  (exists j, j <> i /\ vs !! j = Some w).
Proof.
  intros Hw. apply list_elem_of_lookup in Hw as [j Hj].
  destruct (decide (j = i)) as [->|Hne].
  - left. rewrite list_lookup_alter_eq in Hj.
    destruct (vs !! i) as [v|]; [|done]. injection Hj as <-. eauto.
  - right. rewrite list_lookup_alter_ne in Hj by done. eauto.
Qed.

Lemma NoDup_names_lookup vs i j v w :
  NoDup (var_name <$> vs) ->
  vs !! i = Some v -> vs !! j = Some w -> var_name v = var_name w -> i = j.
Proof.
  intros Hnd Hi Hj Hn.
  eapply NoDup_lookup; [exact Hnd| |].
  - by rewrite list_lookup_fmap, Hi.
  - rewrite list_lookup_fmap, Hj. simpl. by rewrite Hn.
Qed.

(** [set_var] keeps the store in order when it is called to export a name
    that [setenv] accepts, or to assign a variable that is not marked
    exported. A bare assignment to an exported variable is the case left
    out. *)
Lemma set_var_store_ok name value exported st :
  store_ok st ->
  (exported = true /\ name <> "" /\ str_contains "=" name = false) \/
  (exported = false /\
   forall v, v ∈ vars st -> var_name v = name -> var_exported v = false) ->
  store_ok (set_var name value exported st).
Proof.
  intros [Hnd Hsync] Hcase. unfold set_var.
  destruct (find_var name (vars st)) as [i|] eqn:Hfind.
  - destruct (find_var_Some _ _ _ Hfind) as (v0 & Hi & Hn0).
    assert (forall w, w ∈ alter (fun v => mk_var (var_name v) value
                                   (if exported then true else var_exported v))
                             i (vars st) ->
                      (w = mk_var name value
                             (if exported then true else var_exported v0)) \/
                      (w ∈ vars st /\ var_name w <> name)) as Hel.
    { intros w Hw. apply elem_of_alter in Hw as [(v & Hv & ->)|(j & Hj & Hw)].
      - left. rewrite Hi in Hv. injection Hv as <-. by rewrite Hn0.
      - right. split; [by eapply list_elem_of_lookup_2|].
        intros Hn. apply Hj. symmetry.
        eapply NoDup_names_lookup; eauto. congruence. }
    destruct Hcase as [(-> & Hne & Heq)|[-> Hun]].
    + unfold setenv. rewrite bool_decide_eq_false_2, Heq by done. cbn [orb].
      split; cbn [vars set_vars set_environ environ].
      * by rewrite names_alter.
      * intros w Hw Hexp. cbn [vars set_vars set_environ environ] in *.
        destruct (Hel w Hw) as [->|[Hold Hn]].
        -- apply lookup_insert_eq.
        -- rewrite lookup_insert_ne by done. by apply Hsync.
    + split; cbn [vars set_vars environ].
      * by rewrite names_alter.
      * intros w Hw Hexp. cbn [vars set_vars environ] in *.
        destruct (Hel w Hw) as [->|[Hold Hn]].
        -- cbn in Hexp. rewrite (Hun v0) in Hexp; try done.
           by eapply list_elem_of_lookup_2.
        -- by apply Hsync.
  - assert (forall w, w ∈ vars st -> var_name w <> name) as Hfresh
      by (intros w; by apply find_var_None).
    assert (store_ok
              (if (length (vars st) <? MAX_VARS)%nat
               then set_vars (vars st ++ [mk_var name value exported]) st
               else st) ->
            forall w, w ∈ vars (if (length (vars st) <? MAX_VARS)%nat
                                then set_vars (vars st ++ [mk_var name value exported]) st
                                else st) ->
                      w = mk_var name value exported \/ w ∈ vars st) as Hel.
    { intros _ w. destruct (length (vars st) <? MAX_VARS)%nat; [|auto].
      cbn. rewrite elem_of_app, list_elem_of_singleton. tauto. }
    assert (NoDup (var_name <$>
                     vars (if (length (vars st) <? MAX_VARS)%nat
                           then set_vars (vars st ++ [mk_var name value exported]) st
                           else st))) as Hnd'.
    { destruct (length (vars st) <? MAX_VARS)%nat; [|done].
      cbn. rewrite fmap_app. apply NoDup_app. split; [done|]. split.
      - intros n Hn Hn'. apply list_elem_of_singleton in Hn'. subst n.
        apply list_elem_of_fmap in Hn as (w & Hw & Hin). by eapply Hfresh.
      - apply NoDup_singleton. }
    destruct Hcase as [(-> & Hne & Heq)|[-> Hun]].
    + unfold setenv. rewrite bool_decide_eq_false_2, Heq by done. cbn [orb].
      split; [by destruct (length (vars st) <? MAX_VARS)%nat|].
      intros w Hw Hexp.
      assert (w = mk_var name value true \/ w ∈ vars st) as [->|Hold].
      { destruct (length (vars st) <? MAX_VARS)%nat; cbn in Hw; [|auto].
        rewrite elem_of_app, list_elem_of_singleton in Hw. tauto. }
      * destruct (length (vars st) <? MAX_VARS)%nat; cbn; apply lookup_insert_eq.
      * assert (environ (set_environ (<[name:=value]>
                   (environ (if (length (vars st) <? MAX_VARS)%nat
                             then set_vars (vars st ++ [mk_var name value true]) st
                             else st)))
                   (if (length (vars st) <? MAX_VARS)%nat
                    then set_vars (vars st ++ [mk_var name value true]) st
                    else st)) = <[name:=value]> (environ st)) as ->
          by (by destruct (length (vars st) <? MAX_VARS)%nat).
        rewrite lookup_insert_ne by (apply not_eq_sym; by apply Hfresh).
        by apply Hsync.
    + split; [done|].
      intros w Hw Hexp.
      assert (w = mk_var name value false \/ w ∈ vars st) as [->|Hold].
      { destruct (length (vars st) <? MAX_VARS)%nat; cbn in Hw; [|auto].
        rewrite elem_of_app, list_elem_of_singleton in Hw. tauto. }
      * done.
      * assert (environ (if (length (vars st) <? MAX_VARS)%nat
                         then set_vars (vars st ++ [mk_var name value false]) st
                         else st) = environ st) as ->
          by (by destruct (length (vars st) <? MAX_VARS)%nat).
        by apply Hsync.
Qed.
End StoreInvariant.

(** ** Builtins and the descriptor table *)

Section BuiltinIO.
Context (k : kernel) (st0 : shell).
Implicit Types (st : shell).

Lemma io_kept_refl : io_kept st0 st0.
Proof. by split. Qed.

Lemma io_kept_write fd text st :
  fd = 1 \/ fd = 2 -> io_kept st0 st -> io_kept st0 (write_fd fd text st).
Proof.
  intros Hfd [Htab Hfiles]. unfold write_fd.
  destruct (fdtab st !! fd) as [[]|] eqn:E; try (by split).
  split; [done|]. intros H1 H2. rewrite Htab in E.
  destruct Hfd as [-> | ->]; congruence.
Qed.

Lemma io_kept_printf text st : io_kept st0 st -> io_kept st0 (printf text st).
Proof. apply io_kept_write. by left. Qed.

Lemma io_kept_eprintf text st : io_kept st0 st -> io_kept st0 (eprintf text st).
Proof. apply io_kept_write. by right. Qed.

Lemma io_kept_setenv name value st :
  io_kept st0 st -> io_kept st0 (setenv name value st).
Proof. unfold setenv. by destruct (_ || _). Qed.

Lemma io_kept_set_var name value exported st :
  io_kept st0 st -> io_kept st0 (set_var name value exported st).
Proof.
  intros H. unfold set_var.
  assert (io_kept st0
            match find_var name (vars st) with
            | Some i =>
                set_vars
                  (alter (fun v => mk_var (var_name v) value
                                     (if exported then true else var_exported v))
                     i (vars st)) st
            | None =>
                if (length (vars st) <? MAX_VARS)%nat
                then set_vars (vars st ++ [mk_var name value exported]) st
                else st
            end) as H1.
  { destruct (find_var name (vars st)); [done|].
    by destruct (length (vars st) <? MAX_VARS)%nat. }
  destruct exported; [by apply io_kept_setenv|done].
Qed.

Lemma io_kept_export_arg arg st :
  io_kept st0 st -> io_kept st0 (export_arg arg st).
Proof.
  intros H. unfold export_arg.
  destruct (split_eq arg) as [[name value]|]; [by apply io_kept_set_var|].
  destruct (find_var arg (vars st)) as [i|]; [|done].
  destruct (vars st !! i) as [v|]; [|done].
  by apply io_kept_setenv.
Qed.

Lemma io_kept_foldl {A} (f : shell -> A -> shell) (l : list A) :
  (forall st a, io_kept st0 st -> io_kept st0 (f st a)) ->
  forall st, io_kept st0 st -> io_kept st0 (foldl f st l).
Proof.
  intros Hf. induction l as [|a l IH]; intros st H; simpl; [done|].
  by apply IH, Hf.
Qed.

Lemma io_kept_run_builtin name cmd st :
  io_kept st0 st -> io_kept st0 (run_builtin k name cmd st).2.
Proof.
  intros H. unfold run_builtin.
  repeat case_bool_decide; try done.
  - unfold builtin_cd.
    destruct (cmd_args cmd !! 1%nat) as [d|]; [|destruct (getenv "HOME" st) as [d|]].
    + destruct (k_chdir k d); [by apply io_kept_eprintf|done].
    + destruct (k_chdir k d); [by apply io_kept_eprintf|done].
    + by apply io_kept_eprintf.
  - by apply io_kept_foldl; [intros; apply io_kept_export_arg|].
  - unfold builtin_fg. destruct (last (jobs st)) as [job|];
      [|by apply io_kept_eprintf].
    destruct (WIFEXITED _); [done|]. by destruct (WIFSTOPPED _).
  - unfold builtin_bg. destruct (last (jobs st)) as [job|];
      [|by apply io_kept_eprintf].
    by destruct (job_state job).
  - by apply io_kept_foldl; [intros; apply io_kept_printf|].
Qed.
End BuiltinIO.

(** C3, as the code has it. A lone builtin in the foreground runs in the
    shell process and its redirections are not applied at all: the run is
    the one of the same command without redirections, no file is opened and
    the descriptor table of the shell is what it was. With descriptors 1 and
    2 on the terminal no file is written either, so [jobs > f] lists the jobs
    on the terminal. *)
Theorem builtin_fast_path_ignores_redirections (k : kernel) (name : string)
    (args : list string) (rs : list redirect_t) (negate : bool) (st : shell) :
  is_builtin name = true ->
  let pl := mk_pipeline [mk_command (name :: args) rs] negate false in
  execute_pipeline k pl st
  = execute_pipeline k (mk_pipeline [mk_command (name :: args) []] negate false) st /\
  exists status st',
    execute_pipeline k pl st = Returns status st' /\
    fdtab st' = fdtab st /\
    (fdtab st !! 1 = Some Term -> fdtab st !! 2 = Some Term ->
     sys_files st' = sys_files st).
Proof.
  intros Hb pl. split.
  - unfold pl, execute_pipeline. cbn [pl_cmds cmd_args head pl_background].
    rewrite Hb. reflexivity.
  - unfold pl, execute_pipeline.
    cbn [pl_cmds cmd_args head pl_background pl_negate]. rewrite Hb.
    cbn [andb negb].
    pose proof (io_kept_run_builtin k st name (mk_command (name :: args) rs) st
                  (io_kept_refl st)) as [Htab Hfiles].
    destruct (run_builtin k name (mk_command (name :: args) rs) st)
      as [status st'].
    by exists (apply_negate negate status), st'.
Qed.

(** [jobs > f] runs as [jobs]. *)
Lemma builtin_fast_path_ignores_redirections_witness :
  let k := sample_kernel 500 0 in
  let st := add_job 400 "background job" false (initial_shell false 1 ∅) in
  let to_f := mk_redirect 1 "f" (Z.lor (Z.lor O_WRONLY O_CREAT) O_TRUNC) 420 in
  execute_pipeline k (mk_pipeline [mk_command ["jobs"] [to_f]] false false) st
  = execute_pipeline k (mk_pipeline [mk_command ["jobs"] []] false false) st.
Proof.
  intros k st to_f.
  destruct (builtin_fast_path_ignores_redirections k "jobs" [] [to_f] false st)
    as [H _]; [reflexivity|exact H].
Defined.

(** C3 as stated fails: after [sleep 10 &], the line [jobs > f] puts the
    listing on the terminal and never creates [f]. *)
Lemma builtin_redirect_counterexample :
  match main_loop (sample_kernel 400 0) ["sleep 10 &"; "jobs > f"]
          (initial_shell false 1 ∅) with
  | Returns _ st =>
      sys_files st !! "f" = None /\
      sys_term st = "TTT[1] 400" +:+ LF +:+ "TTT[1] Running    background job" +:+ LF
  | _ => False
  end.
Proof. vm_compute. split; reflexivity. Qed.

(** The sibling path: the same command run by a child of a launch has its
    redirections applied, and the listing goes to the file. *)
Example builtin_in_child_is_redirected :
  let st := add_job 400 "background job" false (initial_shell false 1 ∅) in
  let to_f := mk_redirect 1 "f" (Z.lor (Z.lor O_WRONLY O_CREAT) O_TRUNC) 420 in
  match child_process (sample_kernel 500 0) 1 0 (mk_command ["jobs"] [to_f]) st with
  | ChildExit code st' =>
      code = 0 /\
      sys_files st' !! "f" = Some ("[1] Running    background job" +:+ LF) /\
      sys_term st' = ""
  | _ => False
  end.
Proof. vm_compute. repeat split. Qed.

(** * Further properties of the code *)

(** ** Variable store: lookup after update *)

Section StoreLookup.
Implicit Types (st : shell) (vs : list var_t) (name value : string).

Lemma find_var_alter (f : var_t -> var_t) name i vs :
  (forall v, var_name (f v) = var_name v) ->
  find_var name (alter f i vs) = find_var name vs.
Proof.
  intros Hf. revert i. induction vs as [|v vs IH]; intros i; [done|].
  destruct i as [|i]; cbn [alter list_alter find_var].
  - by rewrite Hf.
  - change (list_alter f i vs) with (alter f i vs). by rewrite IH.
Qed.

Lemma find_var_snoc name vs v :
  find_var name (vs ++ [v]) =
    match find_var name vs with
    | Some i => Some i
    | None => if bool_decide (var_name v = name) then Some (length vs) else None
    end.
Proof.
  induction vs as [|w vs IH]; simpl.
  - by case_bool_decide.
  - destruct (bool_decide (var_name w = name)); [done|]. rewrite IH.
    destruct (find_var name vs); simpl; [done|]. by case_bool_decide.
Qed.

Lemma find_var_bound name vs i :
  find_var name vs = Some i -> (i < length vs)%nat.
Proof.
  intros H. destruct (find_var_Some _ _ _ H) as (v & Hv & _).
  by eapply lookup_lt_Some.
Qed.

Lemma vars_setenv name value st : vars (setenv name value st) = vars st.
Proof. unfold setenv. by destruct (_ || _). Qed.

Lemma vars_set_var name value exported st :
  vars (set_var name value exported st) =
    match find_var name (vars st) with
    | Some i =>
        alter (fun v => mk_var (var_name v) value
                          (if exported then true else var_exported v))
          i (vars st)
    | None =>
        if (length (vars st) <? MAX_VARS)%nat
        then vars st ++ [mk_var name value exported]
        else vars st
    end.
Proof.
  unfold set_var. destruct exported; rewrite ?vars_setenv;
    destruct (find_var name (vars st)); try done;
    by destruct (length (vars st) <? MAX_VARS)%nat.
Qed.

Lemma environ_set_var name value exported st :
  environ (set_var name value exported st) =
    if exported && negb (bool_decide (name = "") || str_contains "=" name)
    then <[name := value]> (environ st) else environ st.
Proof.
  unfold set_var, setenv. destruct exported; cbn [andb].
  - destruct (bool_decide (name = "") || str_contains "=" name); cbn [negb];
      destruct (find_var name (vars st)); try done;
      by destruct (length (vars st) <? MAX_VARS)%nat.
  - destruct (find_var name (vars st)); try done.
    by destruct (length (vars st) <? MAX_VARS)%nat.
Qed.

Lemma specials_set_var name value exported st :
  last_status (set_var name value exported st) = last_status st /\
  shell_pid (set_var name value exported st) = shell_pid st /\
  last_bg_pid (set_var name value exported st) = last_bg_pid st.
Proof.
  unfold set_var, setenv.
  destruct exported; [destruct (_ || _)|];
    destruct (find_var name (vars st)); try done;
    by destruct (length (vars st) <? MAX_VARS)%nat.
Qed.
End StoreLookup.

(** X1. A variable that is assigned (or exported with a value) reads back
    with that value, provided it is not one of the special parameters and
    the store has the name already or has a free slot. *)
Theorem set_var_then_get_var (name value : string) (exported : bool)
    (st : shell) :
  special_value name st = None ->
  is_Some (find_var name (vars st)) \/ (length (vars st) < MAX_VARS)%nat ->
  get_var name (set_var name value exported st) = Some value.
Proof.
  intros Hsp Hroom. unfold special_value in Hsp. unfold get_var.
  repeat (case_bool_decide; [done|]).
  rewrite vars_set_var.
  destruct (find_var name (vars st)) as [i|] eqn:Hf.
  - rewrite find_var_alter by done. rewrite Hf.
    rewrite list_lookup_alter_eq.
    destruct (find_var_Some _ _ _ Hf) as (v & -> & _). done.
  - destruct Hroom as [[i Hi]|Hlen]; [done|].
    apply Nat.ltb_lt in Hlen. rewrite Hlen.
    rewrite find_var_snoc, Hf. cbn [var_name].
    rewrite bool_decide_eq_true_2 by done.
    by rewrite lookup_app_r, Nat.sub_diag.
Qed.

(** Assignment, then the value through [$NAME]. *)
Lemma set_var_then_get_var_witness :
  get_var "FOO" (set_var "FOO" "bar" false (initial_shell false 1 ∅)) = Some "bar".
Proof.
  apply set_var_then_get_var.
  - reflexivity.
  - right. vm_compute. lia.
Defined.

(** X2. Setting one variable changes what no other name reads as, the
    special parameters included. For an exported variable "other" means
    more than a different name: [getenv] compares a name with the start of
    an entry, so a name [A=B] (written [${A=B}]) reads the entry of [A], and
    the name must not be within the entry that is set. *)
Theorem set_var_other_names (name other value : string) (exported : bool)
    (st : shell) :
  other <> name ->
  (exported = true -> entry_name other <> name) ->
  get_var other (set_var name value exported st) = get_var other st.
Proof.
  intros Hne Hentry. unfold get_var.
  destruct (specials_set_var name value exported st) as (-> & -> & ->).
  repeat (case_bool_decide; [done|]).
  rewrite vars_set_var.
  assert (getenv other (set_var name value exported st) = getenv other st)
    as Henv.
  { unfold getenv. rewrite environ_set_var.
    case_bool_decide; [done|].
    destruct exported; cbn [andb]; [|done].
    destruct (negb _); [|done]. specialize (Hentry eq_refl).
    unfold entry_name in Hentry.
    destruct (split_eq other) as [[key tail]|];
      by rewrite lookup_insert_ne. }
  rewrite Henv.
  destruct (find_var name (vars st)) as [i|] eqn:Hf.
  - rewrite find_var_alter by done.
    destruct (find_var other (vars st)) as [j|] eqn:Hg; [|done].
    rewrite list_lookup_alter_ne; [done|].
    intros ->. destruct (find_var_Some _ _ _ Hf) as (v & Hv & Hn).
    destruct (find_var_Some _ _ _ Hg) as (w & Hw & Hm). congruence.
  - destruct (length (vars st) <? MAX_VARS)%nat; [|done].
    rewrite find_var_snoc. cbn [var_name].
    rewrite bool_decide_eq_false_2 by done.
    destruct (find_var other (vars st)) as [j|] eqn:Hg; [|done].
    rewrite lookup_app_l; [done|]. by eapply find_var_bound.
Qed.

Lemma set_var_other_names_witness :
  get_var "?" (set_var "FOO" "bar" true (initial_shell false 1 ∅)) = Some "0".
Proof.
  rewrite (set_var_other_names "FOO" "?" "bar" true);
    [reflexivity|discriminate|discriminate].
Defined.

(** The condition on the entry cannot be dropped: [export A=B=c] makes the
    name [A=B] read as [c]. *)
Example name_within_exported_entry :
  let st := initial_shell false 1 ∅ in
  get_var "A=B" st = None /\
  get_var "A=B" (export_arg "A=B=c" st) = Some "c" /\
  expand_word (sample_kernel 1 0) (export_arg "A=B=c" st) "${A=B}" = "c".
Proof. vm_compute. repeat split. Qed.

Section StoreRuns.
Implicit Types (st : shell) (ops : list var_op).

Lemma export_arg_as_set_var arg st i v :
  split_eq arg = None ->
  find_var arg (vars st) = Some i -> vars st !! i = Some v ->
  export_arg arg st = set_var arg (var_value v) true st.
Proof.
  intros Hs Hf Hv. unfold export_arg, set_var. rewrite Hs, Hf, Hv.
  destruct (find_var_Some _ _ _ Hf) as (w & Hw & Hn).
  assert (w = v) as -> by congruence. rewrite Hn. f_equal. f_equal.
  apply list_eq. intros j. rewrite !list_lookup_alter.
  case_decide; [subst j|done]. rewrite Hv. done.
Qed.

(** The name [split_eq] cuts off holds no [=], and neither does a token it
    does not split. *)
Lemma split_eq_name tok name value :
  split_eq tok = Some (name, value) -> str_contains "=" name = false.
Proof.
  revert name. induction tok as [|c tok IH]; intros name; [done|]. simpl.
  destruct (Ascii.eqb c "=") eqn:Ec.
  - intros H. by simplify_eq.
  - destruct (split_eq tok) as [[n v]|]; [|done].
    intros H. simplify_eq. simpl. rewrite Ec. by apply IH.
Qed.

Lemma split_eq_whole tok : split_eq tok = None -> str_contains "=" tok = false.
Proof.
  induction tok as [|c tok IH]; [done|]. simpl.
  destruct (Ascii.eqb c "="); [done|].
  destruct (split_eq tok) as [[n v]|]; [done|]. intros _. by apply IH.
Qed.

(** Each store operation is [set_var] or nothing. *)
Lemma var_step_cases op st :
  var_step op st = st \/
  exists name value exported,
    var_step op st = set_var name value exported st /\
    (var_op_ok op st ->
     (exported = true /\ name <> "" /\ str_contains "=" name = false) \/
     (exported = false /\
      forall v, v ∈ vars st -> var_name v = name -> var_exported v = false)).
Proof.
  destruct op as [name value|arg]; cbn [var_step].
  - right. exists name, value, false. split; [done|]. intros H. by right.
  - unfold var_op_ok, export_name.
    destruct (split_eq arg) as [[name value]|] eqn:Hs.
    + right. exists name, value, true. split.
      * unfold export_arg. by rewrite Hs.
      * intros H. left. split_and!; [done..|]. by eapply split_eq_name.
    + destruct (find_var arg (vars st)) as [i|] eqn:Hf.
      * destruct (find_var_Some _ _ _ Hf) as (v & Hv & Hn).
        right. exists arg, (var_value v), true. split.
        -- by eapply export_arg_as_set_var.
        -- intros H. left. split_and!; [done..|]. by apply split_eq_whole.
      * left. unfold export_arg. by rewrite Hs, Hf.
Qed.

Lemma set_var_names_bound name value exported st :
  NoDup (var_name <$> vars st) -> (length (vars st) <= MAX_VARS)%nat ->
  NoDup (var_name <$> vars (set_var name value exported st)) /\
  (length (vars (set_var name value exported st)) <= MAX_VARS)%nat.
Proof.
  intros Hnd Hlen. rewrite vars_set_var.
  destruct (find_var name (vars st)) as [i|] eqn:Hf.
  - rewrite names_alter by done. by rewrite length_alter.
  - destruct (length (vars st) <? MAX_VARS)%nat eqn:E; [|done].
    apply Nat.ltb_lt in E. rewrite fmap_app, length_app. cbn. split; [|lia].
    apply NoDup_app. split; [done|]. split; [|apply NoDup_singleton].
    intros n Hn Hn'. apply list_elem_of_singleton in Hn'. subst n.
    apply list_elem_of_fmap in Hn as (w & Hw & Hin).
    by eapply find_var_None.
Qed.
End StoreRuns.

(** X3. The special parameters cannot be assigned or exported away: after
    every sequence of assignments and exports, [?], [$] and [!] still read
    as the last status, the shell's pid and the last launched group. *)
Theorem special_parameters_survive_store_operations (ops : list var_op)
    (st : shell) :
  get_var "?" (var_run ops st) = Some (fmt_d (last_status st)) /\
  get_var "$" (var_run ops st) = Some (fmt_d (shell_pid st)) /\
  get_var "!" (var_run ops st) = Some (fmt_d (last_bg_pid st)).
Proof.
  assert (last_status (var_run ops st) = last_status st /\
          shell_pid (var_run ops st) = shell_pid st /\
          last_bg_pid (var_run ops st) = last_bg_pid st) as (H1 & H2 & H3).
  { unfold var_run. revert st.
    induction ops as [|op ops IH]; intros st; [done|]. cbn [foldl].
    destruct (IH (var_step op st)) as (-> & -> & ->).
    destruct (var_step_cases op st) as [->|(n & v & e & -> & _)]; [done|].
    apply specials_set_var. }
  unfold get_var. cbn [bool_decide decide_rel]. by rewrite H1, H2, H3.
Qed.

(** X4. The store is a bounded mapping: across every sequence of
    assignments and exports no name occurs twice and the number of entries
    stays at or below [MAX_VARS]. *)
Theorem store_names_unique_and_bounded (ops : list var_op) (st : shell) :
  NoDup (var_name <$> vars st) -> (length (vars st) <= MAX_VARS)%nat ->
  NoDup (var_name <$> vars (var_run ops st)) /\
  (length (vars (var_run ops st)) <= 256)%nat.
Proof.
  unfold var_run. revert st.
  induction ops as [|op ops IH]; intros st Hnd Hlen; [done|]. cbn [foldl].
  destruct (var_step_cases op st) as [->|(n & v & e & -> & _)]; [by apply IH|].
  destruct (set_var_names_bound n v e st Hnd Hlen) as [Hnd' Hlen'].
  by apply IH.
Qed.

Lemma store_names_unique_and_bounded_witness :
  let st := var_run [Assign "A" "1"; Export "A=2"; Export "B"; Assign "A" "3"]
              (initial_shell false 1 ∅) in
  NoDup (var_name <$> vars st) /\ (length (vars st) <= 256)%nat.
Proof.
  apply (store_names_unique_and_bounded
           [Assign "A" "1"; Export "A=2"; Export "B"; Assign "A" "3"]
           (initial_shell false 1 ∅)).
  - apply NoDup_nil_2.
  - vm_compute. lia.
Defined.

(** X5. As long as no bare assignment hits a variable already marked
    exported, and no export names the empty string, every exported variable
    is in the environment with the value the store holds. *)
Theorem exports_keep_environment_in_step (ops : list var_op) (st : shell) :
  store_ok st -> var_run_ok ops st -> store_ok (var_run ops st).
Proof.
  unfold var_run. revert st.
  induction ops as [|op ops IH]; intros st Hok Hrun; [done|].
  destruct Hrun as [Hop Hrun]. cbn [foldl]. apply IH; [|done].
  destruct (var_step_cases op st) as [->|(n & v & e & -> & Hcase)]; [done|].
  by apply set_var_store_ok, Hcase.
Qed.

Lemma exports_keep_environment_in_step_witness :
  store_ok (var_run [Assign "A" "1"; Export "A"; Export "B=2"; Assign "C" "3"]
              (initial_shell false 1 ∅)).
Proof.
  apply exports_keep_environment_in_step.
  - split; [apply NoDup_nil_2|]. intros v Hv. by apply elem_of_nil in Hv.
  - cbn [var_run_ok]. repeat split.
    + intros v Hv. by apply elem_of_nil in Hv.
    + discriminate.
    + discriminate.
    + intros v Hv Hn. vm_compute in Hv.
      apply list_elem_of_In in Hv. simpl in Hv.
      destruct Hv as [<-|[<-|[]]]; discriminate.
Defined.

(** ** Job table: lookup, removal, the handler *)

Section JobLookup.
Implicit Types (st : shell) (js : list job_t) (pgid : Z).

Lemma find_job_Some pgid js i :
  find_job pgid js = Some i ->
  exists j, js !! i = Some j /\ job_pgid j = pgid /\
            forall i' j', (i' < i)%nat -> js !! i' = Some j' -> job_pgid j' <> pgid.
Proof.
  revert i. induction js as [|j js IH]; intros i; simpl; [done|].
  destruct (Z.eqb_spec (job_pgid j) pgid) as [Heq|Hne].
  - intros [= <-]. exists j. repeat split; [done|]. intros i' j' Hlt. lia.
  - destruct (find_job pgid js) as [i0|] eqn:E; [|done].
    intros [= <-]. destruct (IH i0 eq_refl) as (j0 & Hj0 & Hp & Hfirst).
    exists j0. repeat split; [done..|].
    intros [|i'] j' Hlt Hj'; simpl in Hj'.
    + by injection Hj' as <-.
    + eapply Hfirst; [|done]. lia.
Qed.

Lemma find_job_None pgid js :
  find_job pgid js = None <-> Forall (fun j => job_pgid j <> pgid) js.
Proof.
  induction js as [|j js IH]; simpl; [by split; [constructor|]|].
  destruct (Z.eqb_spec (job_pgid j) pgid) as [Heq|Hne].
  - split; [done|]. intros H. apply Forall_cons in H as [H _]. done.
  - destruct (find_job pgid js) as [i0|] eqn:E; simpl.
    + split; [done|]. intros H. apply Forall_cons in H as [_ H].
      by apply IH in H.
    + split; [|done]. intros _. apply Forall_cons. split; [done|]. by apply IH.
Qed.

Lemma find_job_snoc pgid js j :
  find_job pgid (js ++ [j]) =
    match find_job pgid js with
    | Some i => Some i
    | None => if job_pgid j =? pgid then Some (length js) else None
    end.
Proof.
  induction js as [|j0 js IH]; simpl.
  - by destruct (job_pgid j =? pgid).
  - destruct (job_pgid j0 =? pgid); [done|]. rewrite IH.
    destruct (find_job pgid js); simpl; [done|].
    by destruct (job_pgid j =? pgid).
Qed.

(** [remove_job] takes out the very entry [find_job] points at. *)
Lemma remove_first_delete pgid js :
  remove_first pgid js =
    match find_job pgid js with
    | Some i => delete i js
    | None => js
    end.
Proof.
  induction js as [|j js IH]; simpl; [done|].
  destruct (job_pgid j =? pgid); [done|]. rewrite IH.
  by destruct (find_job pgid js).
Qed.

Lemma lookup_job_remove_first pgid other js :
  other <> pgid ->
  lookup_job other (remove_first pgid js) = lookup_job other js.
Proof.
  intros Hne. unfold lookup_job.
  induction js as [|j js IH]; simpl; [done|].
  destruct (Z.eqb_spec (job_pgid j) pgid) as [Heq|Hp].
  - destruct (Z.eqb_spec (job_pgid j) other) as [Heq'|Ho]; [congruence|].
    by destruct (find_job other js).
  - simpl. destruct (job_pgid j =? other); [done|].
    destruct (find_job other (remove_first pgid js)) as [i|],
             (find_job other js) as [i'|]; simpl in *; done.
Qed.
End JobLookup.

(** X6. A job that is added is found again under its group: when the table
    has room, [find_job] returns an entry of that group, and if the group
    was not tracked before it is the new entry, in state Running, with the
    count before the call plus one as id. *)
Theorem add_job_then_find_job (pgid : Z) (cmd : string) (background : bool)
    (st : shell) :
  (length (jobs st) < MAX_JOBS)%nat ->
  (exists j, lookup_job pgid (jobs (add_job pgid cmd background st)) = Some j /\
             job_pgid j = pgid) /\
  (find_job pgid (jobs st) = None ->
   lookup_job pgid (jobs (add_job pgid cmd background st))
   = Some (mk_job (Z.of_nat (length (jobs st)) + 1) pgid JOB_RUNNING cmd)).
Proof.
  intros Hlen. rewrite add_job_jobs.
  apply Nat.leb_gt in Hlen. rewrite Hlen. unfold lookup_job.
  rewrite find_job_snoc. cbn [job_pgid]. rewrite Z.eqb_refl.
  destruct (find_job pgid (jobs st)) as [i|] eqn:Hf; cbn [mbind option_bind].
  - split; [|done]. destruct (find_job_Some _ _ _ Hf) as (j & Hj & Hp & _).
    exists j. split; [|done]. rewrite lookup_app_l; [done|].
    by eapply lookup_lt_Some.
  - rewrite lookup_app_r, Nat.sub_diag by done. cbn. split; [eauto|done].
Qed.

Lemma add_job_then_find_job_witness :
  lookup_job 400 (jobs (add_job 400 "background job" true (initial_shell true 1 ∅)))
  = Some (mk_job 1 400 JOB_RUNNING "background job").
Proof.
  destruct (add_job_then_find_job 400 "background job" true
              (initial_shell true 1 ∅)) as [_ H].
  - vm_compute. lia.
  - apply H. reflexivity.
Defined.

(** X7. [remove_job] deletes exactly the entry [find_job] returns and
    nothing else: a group that is not tracked leaves the shell as it is, and
    the entry found for any other group is the same before and after. *)
Theorem remove_job_removes_found_entry (pgid : Z) (st : shell) :
  jobs (remove_job pgid st) =
    match find_job pgid (jobs st) with
    | Some i => delete i (jobs st)
    | None => jobs st
    end /\
  (find_job pgid (jobs st) = None -> remove_job pgid st = st) /\
  (forall other, other <> pgid ->
     lookup_job other (jobs (remove_job pgid st)) = lookup_job other (jobs st)).
Proof.
  split; [|split].
  - apply remove_first_delete.
  - intros Hf. unfold remove_job. rewrite remove_first_delete, Hf.
    by destruct st.
  - intros other Hne. by apply lookup_job_remove_first.
Qed.

Lemma remove_job_removes_found_entry_witness :
  let st := job_run [Add 100 "a" false; Add 200 "b" false] (initial_shell true 1 ∅) in
  remove_job 300 st = st /\
  lookup_job 200 (jobs (remove_job 100 st)) = Some (mk_job 2 200 JOB_RUNNING "b").
Proof.
  intros st.
  destruct (remove_job_removes_found_entry 300 st) as (_ & H & _).
  destruct (remove_job_removes_found_entry 100 st) as (_ & _ & H').
  split; [by apply H|]. rewrite H'; [reflexivity|discriminate].
Defined.

Section Handler.
Implicit Types (st : shell) (js : list job_t).

Lemma job_ident_alter_state i s js :
  job_ident <$> alter (fun j => mk_job (job_id j) (job_pgid j) s (job_command j)) i js
  = job_ident <$> js.
Proof.
  apply list_eq. intros n. rewrite !list_lookup_fmap, list_lookup_alter.
  case_decide; [subst n|done]. by destruct (js !! i).
Qed.

Lemma find_job_alter_state pgid i s js :
  find_job pgid
    (alter (fun j => mk_job (job_id j) (job_pgid j) s (job_command j)) i js)
  = find_job pgid js.
Proof.
  revert i. induction js as [|j js IH]; intros [|i]; try done.
  - cbn [alter list_alter find_job job_pgid].
    change (list_alter ?f i js) with (alter f i js). by rewrite IH.
Qed.

Lemma sigchld_event_keeps ev st :
  sublist (job_ident <$> jobs (sigchld_event ev st)) (job_ident <$> jobs st) /\
  vars (sigchld_event ev st) = vars st /\
  environ (sigchld_event ev st) = environ st /\
  last_status (sigchld_event ev st) = last_status st /\
  last_bg_pid (sigchld_event ev st) = last_bg_pid st.
Proof.
  destruct ev as [pid status]. unfold sigchld_event.
  destruct (find_job pid (jobs st)) as [i|]; [|done].
  destruct (jobs st !! i) as [job|]; [|done].
  assert (forall text st', jobs (printf text st') = jobs st' /\
            vars (printf text st') = vars st' /\
            environ (printf text st') = environ st' /\
            last_status (printf text st') = last_status st' /\
            last_bg_pid (printf text st') = last_bg_pid st') as Hp.
  { intros text st'. unfold printf, write_fd.
    by destruct (fdtab st' !! 1) as [[]|]. }
  destruct (WIFEXITED status || WIFSIGNALED status).
  - destruct (Hp ("[" +:+ fmt_d (job_id job) +:+ "] Done    "
                  +:+ job_command job +:+ LF) (set_job_state i JOB_DONE st))
      as (Hj & Hv & He & Hs & Hb).
    unfold remove_job. cbn [jobs vars environ last_status last_bg_pid set_jobs].
    rewrite Hj, Hv, He, Hs, Hb. split; [|done].
    etrans; [apply fmap_sublist, remove_first_sublist|].
    cbn [set_job_state jobs set_jobs]. by rewrite job_ident_alter_state.
  - destruct (WIFSTOPPED status).
    + destruct (Hp ("[" +:+ fmt_d (job_id job) +:+ "] Stopped "
                    +:+ job_command job +:+ LF) (set_job_state i JOB_STOPPED st))
        as (-> & -> & -> & -> & ->).
      cbn [set_job_state jobs set_jobs]. by rewrite job_ident_alter_state.
    + destruct (WIFCONTINUED status); [|done].
      cbn [set_job_state jobs set_jobs]. by rewrite job_ident_alter_state.
Qed.
End Handler.

(** X8. Whatever events it drains, the SIGCHLD handler never adds or
    renumbers a job: the jobs left keep their id, group and command and
    their order; and it touches neither the variables, the environment, the
    last status nor the last launched group. *)
Theorem sigchld_handler_only_drops_jobs (events : list (Z * Z)) (st : shell) :
  sublist (job_ident <$> jobs (sigchld_handler events st))
          (job_ident <$> jobs st) /\
  vars (sigchld_handler events st) = vars st /\
  environ (sigchld_handler events st) = environ st /\
  last_status (sigchld_handler events st) = last_status st /\
  last_bg_pid (sigchld_handler events st) = last_bg_pid st.
Proof.
  unfold sigchld_handler. revert st.
  induction events as [|ev events IH]; intros st; [done|]. cbn [foldl].
  destruct (IH (sigchld_event ev st)) as (Hj & -> & -> & -> & ->).
  destruct (sigchld_event_keeps ev st) as (Hj' & -> & -> & -> & ->).
  split; [|done]. by etrans.
Qed.

(** X9. An exit or kill reported for the leader of a tracked group removes
    the entry [find_job] returns for it and writes the Done line with that
    entry's id; an event for a pid that leads no tracked group changes
    nothing. *)
Theorem sigchld_event_reaps_tracked_job (pid status : Z) (st : shell) :
  (find_job pid (jobs st) = None -> sigchld_event (pid, status) st = st) /\
  (forall i job,
     find_job pid (jobs st) = Some i -> jobs st !! i = Some job ->
     WIFEXITED status || WIFSIGNALED status = true ->
     fdtab st !! 1 = Some Term ->
     jobs (sigchld_event (pid, status) st) = delete i (jobs st) /\
     sys_term (sigchld_event (pid, status) st)
     = sys_term st +:+ "[" +:+ fmt_d (job_id job) +:+ "] Done    "
       +:+ job_command job +:+ LF).
Proof.
  split.
  - intros Hf. unfold sigchld_event. by rewrite Hf.
  - intros i job Hf Hj Hend Hterm. unfold sigchld_event.
    rewrite Hf, Hj, Hend.
    assert (fdtab (set_job_state i JOB_DONE st) !! 1 = Some Term) as Hterm'
      by done.
    unfold printf, write_fd. rewrite Hterm'.
    unfold remove_job. cbn [jobs set_jobs set_sys_term sys_term set_job_state].
    split; [|done].
    rewrite remove_first_delete, find_job_alter_state, Hf.
    apply list_eq. intros n.
    destruct (decide (n < i)%nat).
    + rewrite !list_lookup_delete_lt by done.
      rewrite list_lookup_alter_ne by lia. done.
    + rewrite !list_lookup_delete_ge by lia.
      rewrite list_lookup_alter_ne by lia. done.
Qed.

Lemma sigchld_event_reaps_tracked_job_witness :
  let st := job_run [Add 100 "a" false; Add 200 "b" false] (initial_shell true 1 ∅) in
  sigchld_event (300, 0) st = st /\
  jobs (sigchld_event (100, 0) st) = [mk_job 2 200 JOB_RUNNING "b"].
Proof.
  intros st.
  destruct (sigchld_event_reaps_tracked_job 300 0 st) as [H _].
  destruct (sigchld_event_reaps_tracked_job 100 0 st) as [_ H'].
  split; [by apply H|].
  destruct (H' 0%nat (mk_job 1 100 JOB_RUNNING "a")) as [-> _]; reflexivity.
Defined.

(** ** Builtins [fg] and [bg], and a pipeline that stops *)

(** X10. [fg] waits for the most recent job. If the job exits, it is
    removed and its exit code becomes the last status and the result. If a
    signal kills it, nothing is recorded: the job stays in the table and
    [fg] returns the status the shell had before. *)
Theorem builtin_fg_after_termination (k : kernel) (cmd : command_t)
    (st : shell) (job : job_t) (t : termination) :
  last (jobs st) = Some job ->
  k_wait k (- job_pgid job) = wait_status t ->
  termination_ok t ->
  builtin_fg k cmd st =
    match t with
    | Exited code =>
        (code, remove_job (job_pgid job) (set_last_status code st))
    | Killed _ _ => (last_status st, st)
    end.
Proof.
  intros Hlast Hwait Hok. unfold builtin_fg. rewrite Hlast, Hwait.
  destruct t as [code|sig core].
  - by destruct (exited_status code Hok) as (_ & -> & ->).
  - by destruct (killed_status sig core Hok) as (-> & -> & _).
Qed.

Lemma builtin_fg_after_termination_witness :
  let st := add_job 400 "background job" false
              (set_last_status 5 (initial_shell true 1 ∅)) in
  builtin_fg (sample_kernel 1 (wait_status (Killed 9 false)))
    (mk_command ["fg"] []) st = (5, st).
Proof.
  intros st.
  apply (builtin_fg_after_termination _ _ st
           (mk_job 1 400 JOB_RUNNING "background job") (Killed 9 false)).
  - reflexivity.
  - reflexivity.
  - simpl. lia.
Defined.

Section Stopped.
Context (k : kernel).

Lemma wait_children_first_stop pgid before pid after : forall status st,
  Forall (fun p => WIFSTOPPED (k_wait k p) = false) before ->
  WIFSTOPPED (k_wait k pid) = true ->
  wait_children k pgid (before ++ pid :: after) status st
  = inl (printf ("[" +:+ fmt_d (Z.of_nat (length (jobs (add_job pgid "stopped job" false st))))
                 +:+ "] Stopped" +:+ LF)
           (add_job pgid "stopped job" false st)).
Proof.
  induction before as [|p before IH]; intros status st Hns Hstop.
  - cbn [app wait_children]. by rewrite Hstop.
  - apply Forall_cons in Hns as [Hp Hns].
    cbn [app wait_children]. rewrite Hp.
    destruct (before ++ pid :: after) eqn:E; [by destruct before|].
    by apply IH.
Qed.
End Stopped.

(** X11. When a child of a foreground pipeline stops, [execute_pipeline]
    returns 0 whatever [negate] says and enters the pipeline in the job
    table, but in state Running; a [bg] that follows therefore finds nothing
    to resume and leaves the shell as it is. *)
Theorem stopped_pipeline_is_tracked_as_running (k : kernel) (pl : pipeline_t)
    (st : shell) (before after : list Z) (pid : Z) (cmd : command_t) :
  on_general_path pl = true ->
  pl_background pl = false ->
  create_pipes k 0 (length (pl_cmds pl) - 1) = None ->
  fork_children k 0 (length (pl_cmds pl)) = Some (before ++ pid :: after) ->
  Forall (fun p => WIFSTOPPED (k_wait k p) = false) before ->
  WIFSTOPPED (k_wait k pid) = true ->
  (length (jobs st) < MAX_JOBS)%nat ->
  exists st',
    execute_pipeline k pl st = Returns 0 st' /\
    jobs st' = jobs st ++
               [mk_job (Z.of_nat (length (jobs st)) + 1)
                  (default 0 (head (before ++ pid :: after)))
                  JOB_RUNNING "stopped job"] /\
    builtin_bg cmd st' = (0, st').
Proof.
  intros Hgen Hfg Hpipes Hfork Hns Hstop Hlen.
  rewrite execute_pipeline_general by done.
  unfold launch. rewrite Hpipes, Hfork, Hfg.
  rewrite wait_children_first_stop by done.
  eexists. split; [done|].
  assert (jobs (add_job (default 0 (head (before ++ pid :: after)))
                  "stopped job" false
                  (set_last_bg_pid (default 0 (head (before ++ pid :: after))) st))
          = jobs st ++
            [mk_job (Z.of_nat (length (jobs st)) + 1)
               (default 0 (head (before ++ pid :: after)))
               JOB_RUNNING "stopped job"]) as Hjobs.
  { rewrite add_job_jobs. cbn [jobs set_last_bg_pid].
    apply Nat.leb_gt in Hlen. by rewrite Hlen. }
  split.
  - by rewrite jobs_printf.
  - unfold builtin_bg. rewrite jobs_printf, Hjobs, last_snoc. done.
Qed.

Lemma stopped_pipeline_is_tracked_as_running_witness :
  let k := sample_kernel 500 (Z.lor (Z.shiftl 20 8) 127) in
  let pl := mk_pipeline [mk_command ["sleep"; "100"] []] true false in
  exists st',
    execute_pipeline k pl (initial_shell true 1 ∅) = Returns 0 st' /\
    jobs st' = [mk_job 1 500 JOB_RUNNING "stopped job"] /\
    builtin_bg (mk_command ["bg"] []) st' = (0, st').
Proof.
  intros k pl.
  apply (stopped_pipeline_is_tracked_as_running k pl (initial_shell true 1 ∅)
           [] [] 500 (mk_command ["bg"] [])).
  - reflexivity.
  - reflexivity.
  - reflexivity.
  - reflexivity.
  - constructor.
  - reflexivity.
  - vm_compute. lia.
Defined.

(** ** Tokenizer: bounds, blank lines, words, quotes *)

Section TokenizerMore.
Implicit Types (p tok rest line : string).

Lemma scan_token_head c p' :
  isspace c = false ->
  exists tok' rest, scan_token false (String c p') = (String c tok', rest).
Proof.
  intros Hc. simpl. rewrite Hc. simpl.
  destruct (scan_token _ p') as [tok' rest]. eauto.
Qed.

Lemma tokenize_loop_shape room : forall p,
  (length (tokenize_loop room p) <= room)%nat /\
  Forall (fun tok => exists c tok', tok = String c tok' /\ isspace c = false)
    (tokenize_loop room p).
Proof.
  induction room as [|room IH]; intros p; [by split; [|constructor]|].
  cbn [tokenize_loop].
  destruct (skip_spaces p) as [|c p'] eqn:Hs; [by split; [simpl; lia|constructor]|].
  pose proof (skip_spaces_head _ _ _ Hs) as Hc.
  destruct (scan_token_head c p' Hc) as (tok' & rest & ->).
  destruct (IH (end_token rest)) as [Hlen Hall].
  split; [simpl; lia|]. constructor; [eauto|done].
Qed.

Lemma skip_spaces_nil p : skip_spaces p = "" <-> str_forall isspace p = true.
Proof.
  induction p as [|c p IH]; simpl; [done|].
  destruct (isspace c); simpl; [done|]. split; discriminate.
Qed.

Lemma is_space_isspace c : Ascii.is_space c = isspace c.
Proof. by destruct c as [[] [] [] [] [] [] [] []]. Qed.

Lemma rev_app_app s t : String.rev_app s t = String.rev_app s "" +:+ t.
Proof.
  revert t. induction s as [|a s IH]; intros t; [done|]. simpl.
  rewrite (IH (String a t)), (IH (String a "")).
  by rewrite str_app_assoc.
Qed.

Lemma words_go_in_word p : forall acc,
  str_forall (fun c => negb (is_quote c)) p = true ->
  String.words_go (Some acc) p
  = (String.rev acc +:+ (scan_token false p).1)
    :: String.words_go None (end_token (scan_token false p).2).
Proof.
  induction p as [|a p IH]; intros acc Hq.
  - simpl. by rewrite str_app_nil_r.
  - simpl in Hq. apply andb_prop in Hq as [Ha Hq]. apply negb_true_iff in Ha.
    cbn [String.words_go scan_token]. rewrite is_space_isspace, Ha.
    destruct (isspace a) eqn:Hs; cbn [orb negb].
    + cbn. by rewrite str_app_nil_r.
    + cbn [from_option]. rewrite (IH (String a acc) Hq).
      destruct (scan_token false p) as [tok rest]. cbn [fst snd].
      f_equal. unfold String.rev. cbn [String.rev_app].
      rewrite (rev_app_app acc (String a "")).
      by rewrite str_app_assoc.
Qed.

Lemma words_go_skip_spaces p :
  String.words_go None p = String.words_go None (skip_spaces p).
Proof.
  induction p as [|a p IH]; [done|].
  cbn [String.words_go skip_spaces]. rewrite is_space_isspace.
  destruct (isspace a) eqn:Hs; [done|].
  cbn [String.words_go]. by rewrite is_space_isspace, Hs.
Qed.

Lemma no_quotes_suffix s t :
  str_forall (fun c => negb (is_quote c)) (s +:+ t) = true ->
  str_forall (fun c => negb (is_quote c)) t = true.
Proof. rewrite str_forall_app. intros H. by apply andb_prop in H as [_ H]. Qed.

Lemma tokenize_loop_words room : forall p,
  str_forall (fun c => negb (is_quote c)) p = true ->
  tokenize_loop room p = take room (String.words p).
Proof.
  induction room as [|room IH]; intros p Hq; [done|].
  unfold String.words. rewrite words_go_skip_spaces.
  destruct (skip_spaces_suffix p) as [sp Hsp].
  rewrite Hsp in Hq. apply no_quotes_suffix in Hq.
  cbn [tokenize_loop].
  destruct (skip_spaces p) as [|c p'] eqn:Hs; [done|].
  pose proof (skip_spaces_head _ _ _ Hs) as Hc.
  cbn [String.words_go]. rewrite is_space_isspace, Hc. cbn [from_option].
  simpl in Hq. apply andb_prop in Hq as [Ha Hq]. apply negb_true_iff in Ha.
  rewrite (words_go_in_word p' (String c "") Hq).
  cbn [scan_token]. rewrite Hc, Ha. cbn [orb negb].
  destruct (scan_token false p') as [tok rest] eqn:Hscan. cbn [fst snd].
  cbn [take]. f_equal. rewrite IH; [done|].
  destruct (scan_token_split _ _ _ _ Hscan) as [Hp _].
  rewrite Hp in Hq. apply no_quotes_suffix in Hq.
  destruct rest as [|d rest]; [done|]. simpl in Hq.
  by apply andb_prop in Hq as [_ Hq].
Qed.

(** Inside quotes the inner loop runs over every byte up to the next quote
    character, and goes on from there outside quotes. *)
Lemma scan_token_quoted body q tail :
  str_forall (fun c => negb (is_quote c)) body = true ->
  is_quote q = true ->
  scan_token true (body +:+ String q tail)
  = let '(tok, rest) := scan_token false tail in (body +:+ String q tok, rest).
Proof.
  intros Hb Hq. induction body as [|c body IH].
  - rewrite str_app_nil_l. cbn [scan_token orb]. rewrite Hq. cbn [negb].
    by destruct (scan_token false tail).
  - simpl in Hb. apply andb_prop in Hb as [Hc Hb]. apply negb_true_iff in Hc.
    rewrite str_app_cons. cbn [scan_token orb]. rewrite Hc, (IH Hb).
    by destruct (scan_token false tail).
Qed.

Lemma scan_token_quoted_word q1 q2 body w rest :
  is_quote q1 = true -> is_quote q2 = true ->
  str_forall (fun c => negb (is_quote c)) body = true ->
  str_forall (fun c => negb (isspace c) && negb (is_quote c)) w = true ->
  match rest with "" => true | String d _ => isspace d end = true ->
  scan_token false (String q1 (body +:+ String q2 (w +:+ rest)))
  = (String q1 (body +:+ String q2 w), rest).
Proof.
  intros H1 H2 Hb Hw Hrest.
  cbn [scan_token]. rewrite (is_quote_not_space q1 H1), H1. cbn [orb negb].
  rewrite (scan_token_quoted body q2 _ Hb H2).
  by rewrite (scan_token_word w rest Hw Hrest).
Qed.
Lemma tokenize_loop_quoted_word room q1 q2 body w rest :
  is_quote q1 = true -> is_quote q2 = true ->
  str_forall (fun c => negb (is_quote c)) body = true ->
  str_forall (fun c => negb (isspace c) && negb (is_quote c)) w = true ->
  match rest with "" => true | String d _ => isspace d end = true ->
  tokenize_loop (S room) (String q1 (body +:+ String q2 (w +:+ rest)))
  = String q1 (body +:+ String q2 w) :: tokenize_loop room (end_token rest).
Proof.
  intros H1 H2 Hb Hw Hrest.
  cbn [tokenize_loop skip_spaces]. rewrite (is_quote_not_space q1 H1).
  by rewrite (scan_token_quoted_word q1 q2 body w rest).
Qed.
End TokenizerMore.

(** X12. [tokenize] never hands the parser more than [MAX_ARGS - 1] = 127
    tokens, however long the line, and no token is empty: each starts with
    a byte that is not white space. *)
Theorem tokenize_bounded_nonempty (line : string) :
  (length (tokenize line) <= 127)%nat /\
  Forall (fun tok => exists c tok', tok = String c tok' /\ isspace c = false)
    (tokenize line).
Proof. apply tokenize_loop_shape. Qed.

(** X13. A line gives no token exactly when it consists of white space
    only (the empty line included). *)
Theorem tokenize_blank_line (line : string) :
  tokenize line = [] <-> str_forall isspace line = true.
Proof.
  rewrite <- skip_spaces_nil. unfold tokenize.
  change (MAX_ARGS - 1)%nat with (S 126). cbn [tokenize_loop].
  destruct (skip_spaces line) as [|c p'] eqn:Hs; [done|].
  destruct (scan_token false (String c p')). split; discriminate.
Qed.

(** X14. On a line without quote characters the tokens are the words of the
    line, its maximal runs of bytes that are not white space, in order, cut
    after the first 127. *)
Theorem tokenize_words (line : string) :
  str_forall (fun c => negb (is_quote c)) line = true ->
  tokenize line = take (MAX_ARGS - 1) (String.words line).
Proof. apply tokenize_loop_words. Qed.

Lemma tokenize_words_witness :
  tokenize "  ls   -la|x  >f " = ["ls"; "-la|x"; ">f"].
Proof.
  rewrite (tokenize_words "  ls   -la|x  >f "); reflexivity.
Defined.

(** X15. A token that opens with a quote runs over white space up to the
    next quote character of either kind; there quoting ends, and the token
    ends at the next white-space byte or at the end of the line, the rest of
    the line giving tokens of its own. The quote characters stay in the
    token: there is no quote removal, and a single quote closes a double
    quote and the other way round. *)
Theorem tokenize_quoted_token (q1 q2 sp : ascii) (body w rest : string) :
  is_quote q1 = true -> is_quote q2 = true ->
  str_forall (fun c => negb (is_quote c)) body = true ->
  str_forall (fun c => negb (isspace c) && negb (is_quote c)) w = true ->
  isspace sp = true ->
  tokenize (String q1 (body +:+ String q2 (w +:+ String sp rest)))
  = String q1 (body +:+ String q2 w) :: take (MAX_ARGS - 2) (tokenize rest)
  /\ tokenize (String q1 (body +:+ String q2 w))
     = [String q1 (body +:+ String q2 w)].
Proof.
  intros H1 H2 Hb Hw Hsp. unfold tokenize.
  change (MAX_ARGS - 1)%nat with (S 126).
  change (MAX_ARGS - 2)%nat with 126%nat.
  split.
  - rewrite (tokenize_loop_quoted_word 126 q1 q2 body w (String sp rest))
      by done.
    cbn [end_token]. f_equal.
    rewrite !tokenize_loop_fields, take_take. by rewrite Nat.min_l by lia.
  - rewrite <- (str_app_nil_r w) at 1.
    rewrite (tokenize_loop_quoted_word 126 q1 q2 body w "") by done.
    cbn [end_token]. by rewrite tokenize_loop_nil.
Qed.

(** The double quote closes the single quote; [c] and [d] are tokens of
    their own. *)
Lemma tokenize_quoted_token_witness :
  tokenize (String "'" ("a  b" +:+ String "034" ("x" +:+ String " " "c d")))
  = [String "'" ("a  b" +:+ String "034" "x"); "c"; "d"].
Proof.
  rewrite (proj1 (tokenize_quoted_token "'" "034" " " "a  b" "x" "c d"
                    eq_refl eq_refl eq_refl eq_refl eq_refl)).
  reflexivity.
Defined.

(** ** Expansion: buffer bound, plain words, tilde, braces *)

Section ExpansionMore.
Context (k : kernel) (st : shell).
Implicit Types (p out pre post rest : string) (prev : option ascii).
Local Opaque MAX_LINE.

Lemma emit_length out val :
  (String.length out <= MAX_LINE - 1)%nat ->
  (String.length (emit out val) <= MAX_LINE - 1)%nat.
Proof.
  intros H. unfold emit. rewrite str_length_app, str_take_length. lia.
Qed.

Lemma expand_loop_length fuel : forall prev p out,
  (String.length out <= MAX_LINE - 1)%nat ->
  (String.length (expand_loop fuel k st prev p out) <= MAX_LINE - 1)%nat.
Proof.
  induction fuel as [|fuel IH]; intros prev p out H; [done|].
  destruct p as [|c p]; [done|]. cbn [expand_loop].
  destruct (Nat.leb_spec (MAX_LINE - 1) (String.length out)); [done|].
  destruct (Ascii.eqb c "$").
  - destruct (starts_with "{" p).
    + destruct (take_while _ 255 (str_tail p)) as [varname r].
      by apply IH, emit_length.
    + destruct (take_while _ 255 p) as [varname r].
      by apply IH, emit_length.
  - destruct (Ascii.eqb c "~" && _).
    + destruct (starts_with "/" p || bool_decide (p = "")).
      * by apply IH, emit_length.
      * destruct (take_while _ 255 p) as [username r].
        by apply IH, emit_length.
    + apply IH. rewrite str_length_app. simpl. lia.
Qed.



Local Arguments take_while : simpl never.
Local Arguments get_var : simpl never.
Local Arguments emit : simpl never.








End ExpansionMore.

(** X16. The result of [expand_word] never exceeds the expansion buffer:
    at most [MAX_LINE - 1] = 4095 bytes, whatever the word and however long
    the values it refers to. *)
Theorem expand_word_fits_buffer (k : kernel) (st : shell) (word : string) :
  (String.length (expand_word k st word) <= MAX_LINE - 1)%nat.
Proof. apply expand_loop_length. simpl. lia. Qed.

(** X17. A word without [$] and [~] that fits the buffer is returned as it
    is. *)
Theorem expand_word_plain (k : kernel) (st : shell) (word : string) :
  plain word = true -> (String.length word <= MAX_LINE - 1)%nat ->
  expand_word k st word = word.
Proof.
  intros Hp Hlen. unfold expand_word.
  rewrite expand_loop_plain by done.
  rewrite emit_empty. by apply str_take_all.
Qed.

Lemma expand_word_plain_witness :
  expand_word (sample_kernel 1 0) (initial_shell false 1 ∅) "-la|wc>>out"
  = "-la|wc>>out".
Proof. apply expand_word_plain; [reflexivity|vm_compute; lia]. Defined.









(** ** Parser *)

Section ParserMore.
Context (k : kernel).
Implicit Types (st : shell) (toks ws : list string) (cmd : command_t).
Local Opaque MAX_LINE.

Lemma split_eq_assignment name value :
  str_contains "=" name = false ->
  split_eq (name +:+ "=" +:+ value) = Some (name, value).
Proof.
  intros Hn. induction name as [|c name IH]; [done|].
  simpl in Hn. apply orb_false_iff in Hn as [Hc Hn].
  rewrite str_app_cons. simpl. rewrite Hc. by rewrite (IH Hn).
Qed.

Lemma split_eq_None tok : str_contains "=" tok = false -> split_eq tok = None.
Proof.
  induction tok as [|c tok IH]; [done|]. simpl. intros H.
  apply orb_false_iff in H as [-> H]. by rewrite (IH H).
Qed.

Lemma split_eq_contains tok nv : split_eq tok = Some nv -> str_contains "=" tok = true.
Proof.
  revert nv. induction tok as [|c tok IH]; intros nv; [done|]. simpl.
  destruct (Ascii.eqb c "="); [done|].
  destruct (split_eq tok) as [[n v]|]; [|done]. intros _. simpl. by eapply IH.
Qed.

(** In front of a command, a token with [=] is an assignment: it is stored
    as written, without expansion, and does not enter the arguments. *)
Lemma parse_tokens_assignment tok name value toks done cmd st :
  split_eq tok = Some (name, value) ->
  parse_tokens k (tok :: toks) done cmd true st
  = parse_tokens k toks done cmd true (set_var name value false st).
Proof.
  intros Hs. pose proof (split_eq_contains _ _ Hs) as Hc.
  cbn [parse_tokens]. rewrite Hs.
  rewrite !bool_decide_eq_false_2; [done|..]; intros ->; discriminate Hc.
Qed.

Lemma simple_arg_facts w :
  simple_arg w = true ->
  plain w = true /\ split_eq w = None /\
  str_contains "*" w = false /\ str_contains "?" w = false /\
  w <> "|" /\ w <> "<" /\ w <> ">" /\ w <> ">>" /\ w <> "!" /\ w <> "&" /\
  (String.length w <= MAX_LINE - 1)%nat.
Proof.
  unfold simple_arg. intros H.
  repeat (apply andb_prop in H as [H ?]).
  repeat match goal with
         | H : negb _ = true |- _ => apply negb_true_iff in H
         end.
  match goal with
  | H : bool_decide _ = false |- _ => apply bool_decide_eq_false in H; rename H into Hop
  end.
  repeat split; try done.
  - by apply split_eq_None.
  - intros ->. apply Hop. set_solver.
  - intros ->. apply Hop. set_solver.
  - intros ->. apply Hop. set_solver.
  - intros ->. apply Hop. set_solver.
  - intros ->. apply Hop. set_solver.
  - intros ->. apply Hop. set_solver.
  - by apply Nat.leb_le.
Qed.

(** A run of simple words in front of any tokens: each becomes an argument
    of the current command, unchanged. *)
Lemma parse_tokens_simple_args ws : forall toks done cmd ia st,
  Forall (fun w => simple_arg w = true) ws ->
  (length (cmd_args cmd) + length ws <= MAX_ARGS)%nat ->
  parse_tokens k (ws ++ toks) done cmd ia st
  = parse_tokens k toks done
      (mk_command (cmd_args cmd ++ ws) (cmd_redirects cmd))
      (match ws with [] => ia | _ => false end) st.
Proof.
  induction ws as [|w ws IH]; intros toks done cmd ia st Hws Hlen.
  - rewrite app_nil_r. by destruct cmd.
  - apply Forall_cons in Hws as [Hw Hws].
    destruct (simple_arg_facts w Hw)
      as (Hp & Hs & Hstar & Hq & H1 & H2 & H3 & H4 & _ & _ & Hl).
    cbn [app parse_tokens].
    rewrite !bool_decide_eq_false_2 by done. cbn [andb].
    rewrite Hs. assert ((if ia then None else None) = @None (string * string)) as ->
      by (by destruct ia).
    rewrite (expand_word_plain k st w Hp Hl), Hstar, Hq. cbn [orb].
    simpl in Hlen.
    assert ((MAX_ARGS <=? length (cmd_args cmd))%nat = false) as ->
      by (apply Nat.leb_gt; lia).
    rewrite IH; [|done|cbn; rewrite length_app; simpl; lia].
    cbn [add_arg cmd_args cmd_redirects]. rewrite <- app_assoc.
    by destruct ws.
Qed.
End ParserMore.

(** X22. A line made of assignments only sets each variable, in order, to
    the text after its first [=], exactly as written (no expansion of the
    value); the pipeline it yields holds one empty command and is reported
    invalid, so nothing is executed. *)
Theorem assignments_only_line (k : kernel) (nvs : list (string * string))
    (st : shell) :
  Forall (fun nv => str_contains "=" nv.1 = false) nvs ->
  parse_pipeline k (assignment_token <$> nvs) st
  = Returns (false, mk_pipeline [empty_command] false false)
      (foldl (fun s nv => set_var nv.1 nv.2 false s) st nvs).
Proof.
  intros Hnvs.
  assert (forall tok, tok ∈ assignment_token <$> nvs ->
            str_contains "=" tok = true) as Heq.
  { intros tok Htok. apply list_elem_of_fmap in Htok as ([n v] & -> & Hin).
    rewrite Forall_forall in Hnvs. specialize (Hnvs _ Hin).
    eapply split_eq_contains. by apply split_eq_assignment. }
  unfold parse_pipeline.
  assert (bool_decide (head (assignment_token <$> nvs) = Some "!") = false) as ->.
  { apply bool_decide_eq_false. intros Hh.
    apply head_Some_elem_of, Heq in Hh. discriminate Hh. }
  assert (bool_decide (last (assignment_token <$> nvs) = Some "&") = false) as ->.
  { apply bool_decide_eq_false. intros Hh.
    apply last_Some_elem_of, Heq in Hh. discriminate Hh. }
  assert (forall st0,
            parse_tokens k (assignment_token <$> nvs) [] empty_command true st0
            = Returns [empty_command]
                (foldl (fun s nv => set_var nv.1 nv.2 false s) st0 nvs)) as ->.
  { clear Heq. induction nvs as [|[n v] nvs IH]; intros st0; [done|].
    apply Forall_cons in Hnvs as [Hn Hnvs]. cbn [fmap list_fmap foldl].
    rewrite (parse_tokens_assignment k _ n v); [by apply IH|].
    by apply split_eq_assignment. }
  done.
Qed.

Lemma assignments_only_line_witness :
  parse_pipeline (sample_kernel 1 0) ["A=1"; "B=$A=x"] (initial_shell false 1 ∅)
  = Returns (false, mk_pipeline [empty_command] false false)
      (set_var "B" "$A=x" false (set_var "A" "1" false (initial_shell false 1 ∅))).
Proof.
  apply (assignments_only_line (sample_kernel 1 0) [("A", "1"); ("B", "$A=x")]).
  repeat constructor.
Defined.

Section CommandTokens.
Implicit Types (w : string) (ws : list string).

Lemma drop_last_snoc {A} (l : list A) x : drop_last (l ++ [x]) = l.
Proof.
  unfold drop_last. rewrite length_app. simpl.
  replace (length l + 1 - 1)%nat with (length l) by lia.
  by rewrite take_app_length.
Qed.

Lemma command_tokens_head negate background w ws :
  w <> "!" ->
  bool_decide (head (command_tokens negate (w :: ws) background) = Some "!")
  = negate.
Proof.
  intros Hw. unfold command_tokens. destruct negate; [done|].
  apply bool_decide_eq_false. simpl. congruence.
Qed.

Lemma command_tokens_last negate background w ws :
  last (w :: ws) <> Some "&" ->
  bool_decide (last (command_tokens negate (w :: ws) background) = Some "&")
  = background.
Proof.
  intros Hl. unfold command_tokens. destruct background.
  - apply bool_decide_eq_true. by rewrite !app_assoc, last_snoc.
  - apply bool_decide_eq_false. rewrite app_nil_r.
    destruct negate; [|done]. cbn [app]. by rewrite last_cons_cons.
Qed.

Lemma command_tokens_body (negate background : bool) w ws :
  @eq (list string)
    (if negate
     then drop 1 (if background
                  then drop_last (command_tokens negate (w :: ws) background)
                  else command_tokens negate (w :: ws) background)
     else (if background
           then drop_last (command_tokens negate (w :: ws) background)
           else command_tokens negate (w :: ws) background))
    (w :: ws).
Proof.
  unfold command_tokens.
  destruct negate, background; rewrite ?app_assoc, ?drop_last_snoc, ?app_nil_r;
    done.
Qed.
End CommandTokens.

(** X23. A command made of simple words, with or without [!] in front and
    [&] at the end, parses into one valid command whose arguments are the
    words as written; the two marks set the negate and background flags and
    are not arguments, and the shell state is not touched. *)
Theorem simple_command_parses_to_its_words (k : kernel) (negate background : bool)
    (words : list string) (st : shell) :
  words <> [] ->
  Forall (fun w => simple_arg w = true) words ->
  (length words <= MAX_ARGS - 1)%nat ->
  parse_pipeline k (command_tokens negate words background) st
  = Returns (true, mk_pipeline [mk_command words []] negate background) st.
Proof.
  intros Hne Hws Hlen. unfold parse_pipeline.
  destruct words as [|w ws]; [done|].
  pose proof Hws as Hall. apply Forall_cons in Hws as [Hw _].
  destruct (simple_arg_facts w Hw) as (_ & _ & _ & _ & _ & _ & _ & _ & Hbang & _).
  assert (last (w :: ws) <> Some "&") as Hlast.
  { intros Hl. apply last_Some_elem_of in Hl.
    rewrite Forall_forall in Hall. specialize (Hall _ Hl).
    by destruct (simple_arg_facts _ Hall)
      as (_ & _ & _ & _ & _ & _ & _ & _ & _ & ? & _). }
  rewrite command_tokens_head, command_tokens_last by done.
  rewrite command_tokens_body.
  assert (length (cmd_args empty_command) + length (w :: ws) <= MAX_ARGS)%nat
    as Hroom.
  { change (length (cmd_args empty_command)) with 0%nat.
    change MAX_ARGS with 128%nat. change (MAX_ARGS - 1)%nat with 127%nat in Hlen.
    lia. }
  pose proof (parse_tokens_simple_args k (w :: ws) [] [] empty_command true st
                Hall Hroom) as Hparse.
  rewrite app_nil_r in Hparse. rewrite Hparse.
  cbn [parse_tokens cmd_args cmd_redirects empty_command app].
  assert ((MAX_ARGS <=? length (w :: ws))%nat = false) as ->.
  { apply Nat.leb_gt. change MAX_ARGS with 128%nat.
    change (MAX_ARGS - 1)%nat with 127%nat in Hlen. lia. }
  done.
Qed.

Lemma simple_command_parses_to_its_words_witness :
  parse_pipeline (sample_kernel 1 0) ["!"; "grep"; "-v"; "foo"; "&"]
    (initial_shell false 1 ∅)
  = Returns (true, mk_pipeline [mk_command ["grep"; "-v"; "foo"] []] true true)
      (initial_shell false 1 ∅).
Proof.
  apply (simple_command_parses_to_its_words (sample_kernel 1 0) true true
           ["grep"; "-v"; "foo"]).
  - discriminate.
  - repeat constructor.
  - vm_compute. lia.
Defined.

Section ParserEdges.
Context (k : kernel).
Implicit Types (st : shell) (toks : list string) (cmd : command_t).
Local Opaque MAX_LINE.

Lemma redirect_op_cases op :
  is_redirect_op op = true -> op = "<" \/ op = ">" \/ op = ">>".
Proof.
  unfold is_redirect_op. intros H. apply bool_decide_eq_true in H.
  rewrite !elem_of_cons in H. destruct H as [?|[?|[?|H]]]; auto.
  by apply elem_of_nil in H.
Qed.

(** A redirection operator with no token after it is an ordinary word. *)
Lemma parse_tokens_last_op op done cmd ia st :
  is_redirect_op op = true ->
  (length (cmd_args cmd) < MAX_ARGS - 1)%nat ->
  parse_tokens k [op] done cmd ia st = Returns (done ++ [add_arg op cmd]) st.
Proof.
  intros Hop Hlen.
  assert (expand_word k st op = op) as Hexp.
  { apply expand_word_plain;
      destruct (redirect_op_cases op Hop) as [->|[->| ->]];
      try reflexivity; change (MAX_LINE - 1)%nat with 4095%nat; simpl; lia. }
  assert (split_eq op = None /\ bool_decide (op = "|") = false /\
          str_contains "*" op || str_contains "?" op = false) as (Hs & Hp & Hg)
    by (destruct (redirect_op_cases op Hop) as [->|[->| ->]]; done).
  change (MAX_ARGS - 1)%nat with 127%nat in Hlen.
  cbn [parse_tokens]. rewrite Hp, !andb_false_r, Hs, Hexp, Hg.
  assert ((if ia then None else None) = @None (string * string)) as ->
    by (by destruct ia).
  assert ((MAX_ARGS <=? length (cmd_args cmd))%nat = false) as ->
    by (apply Nat.leb_gt; change MAX_ARGS with 128%nat; lia).
  assert ((MAX_ARGS <=? length (cmd_args (add_arg op cmd)))%nat = false) as ->
    by (apply Nat.leb_gt; cbn; rewrite length_app; simpl;
        change MAX_ARGS with 128%nat; lia).
  done.
Qed.

(** The commands [parse_tokens] returns begin with the commands that were
    complete when it was entered. *)
Lemma parse_tokens_prefix n : forall toks done cmd ia st cmds st',
  (length toks <= n)%nat ->
  parse_tokens k toks done cmd ia st = Returns cmds st' ->
  exists more, cmds = done ++ more.
Proof.
  induction n as [|n IH]; intros toks done cmd ia st cmds st' Hlen H.
  - destruct toks; [|simpl in Hlen; lia]. cbn [parse_tokens] in H.
    destruct (MAX_ARGS <=? _)%nat; [done|]. injection H as <- _. eauto.
  - destruct toks as [|tok rest].
    + cbn [parse_tokens] in H.
      destruct (MAX_ARGS <=? _)%nat; [done|]. injection H as <- _. eauto.
    + cbn [parse_tokens] in H. simpl in Hlen.
      repeat match type of H with
             | context [if ?b then _ else _] => destruct b eqn:?
             | context [match ?x with _ => _ end] => destruct x eqn:?
             end;
        try discriminate;
        (apply IH in H; [|simpl in *; lia]);
        destruct H as [more ->]; rewrite <- ?app_assoc; eauto.
Qed.

Lemma drop_last_cons {A} (x y : A) (l : list A) :
  drop_last (x :: y :: l) = x :: drop_last (y :: l).
Proof. unfold drop_last. simpl. by rewrite Nat.sub_0_r. Qed.
End ParserEdges.

(** X24. A redirection operator that ends the line has no file name to
    take: it is not an error, the operator becomes the last argument of the
    command and no redirection is recorded. *)
Theorem trailing_redirect_operator_is_argument (k : kernel)
    (words : list string) (op : string) (st : shell) :
  Forall (fun w => simple_arg w = true) words ->
  is_redirect_op op = true ->
  (length words < MAX_ARGS - 1)%nat ->
  parse_pipeline k (words ++ [op]) st
  = Returns (true, mk_pipeline [mk_command (words ++ [op]) []] false false) st.
Proof.
  intros Hws Hop Hlen. unfold parse_pipeline.
  assert (op <> "!" /\ op <> "&") as [Hb Ha]
    by (destruct (redirect_op_cases op Hop) as [->|[->| ->]]; done).
  assert (bool_decide (head (words ++ [op]) = Some "!") = false) as ->.
  { apply bool_decide_eq_false. destruct words as [|w ws]; simpl; [congruence|].
    apply Forall_cons in Hws as [Hw _].
    destruct (simple_arg_facts w Hw) as (_ & _ & _ & _ & _ & _ & _ & _ & ? & _).
    congruence. }
  assert (bool_decide (last (words ++ [op]) = Some "&") = false) as ->.
  { apply bool_decide_eq_false. rewrite last_snoc. congruence. }
  change (MAX_ARGS - 1)%nat with 127%nat in Hlen.
  rewrite (parse_tokens_simple_args k words [op] [] empty_command true st Hws)
    by (change MAX_ARGS with 128%nat; simpl; lia).
  rewrite parse_tokens_last_op;
    [|done|change (MAX_ARGS - 1)%nat with 127%nat; simpl; lia].
  cbn [app add_arg cmd_args cmd_redirects empty_command].
  rewrite bool_decide_eq_true_2; [done|]. by destruct words.
Qed.

Lemma trailing_redirect_operator_is_argument_witness :
  parse_pipeline (sample_kernel 1 0) ["echo"; "hi"; ">"] (initial_shell false 1 ∅)
  = Returns (true, mk_pipeline [mk_command ["echo"; "hi"; ">"] []] false false)
      (initial_shell false 1 ∅).
Proof.
  apply (trailing_redirect_operator_is_argument (sample_kernel 1 0)
           ["echo"; "hi"] ">").
  - repeat constructor.
  - reflexivity.
  - vm_compute. lia.
Defined.

(** X25. A line that starts with [|] never yields a valid pipeline: when
    [parse_pipeline] returns, its first command is empty and the result is
    "invalid", so nothing is executed. *)
Theorem leading_pipe_is_invalid (k : kernel) (rest : list string) (st : shell)
    (valid : bool) (pl : pipeline_t) (st' : shell) :
  parse_pipeline k ("|" :: rest) st = Returns (valid, pl) st' ->
  valid = false /\ head (pl_cmds pl) = Some empty_command.
Proof.
  unfold parse_pipeline. cbn [head]. rewrite bool_decide_eq_false_2 by done.
  assert (exists body,
            (if bool_decide (last ("|" :: rest) = Some "&")
             then drop_last ("|" :: rest) else "|" :: rest) = "|" :: body)
    as [body ->].
  { destruct (bool_decide (last ("|" :: rest) = Some "&")) eqn:E; [|eauto].
    apply bool_decide_eq_true in E. destruct rest as [|y l]; [done|].
    rewrite drop_last_cons. eauto. }
  cbn [parse_tokens empty_command cmd_args length app].
  rewrite bool_decide_eq_true_2 by done.
  change (MAX_ARGS <=? 0)%nat with false. change (MAX_CMDS <=? 0 + 1)%nat with false.
  cbn iota.
  destruct (parse_tokens k body [empty_command] empty_command true st)
    as [cmds st1| |] eqn:E; [|done..].
  destruct (parse_tokens_prefix k (length body) _ _ _ _ _ _ _ (le_n _) E)
    as [more ->].
  cbn [app]. intros [= <- <- _]. done.
Qed.

Lemma leading_pipe_is_invalid_witness :
  exists pl st',
    parse_pipeline (sample_kernel 1 0) ["|"; "grep"; "foo"] (initial_shell false 1 ∅)
    = Returns (false, pl) st'.
Proof.
  destruct (parse_pipeline (sample_kernel 1 0) ["|"; "grep"; "foo"]
              (initial_shell false 1 ∅)) as [[valid pl] st'| |] eqn:E;
    [|vm_compute in E; discriminate E..].
  destruct (leading_pipe_is_invalid _ _ _ _ _ _ E) as [-> _]. eauto.
Defined.

Section StatusRange.
Context (k : kernel).
Implicit Types (st : shell) (status : Z).

Lemma WEXITSTATUS_in_range w : status_in_range (WEXITSTATUS w).
Proof.
  unfold status_in_range, WEXITSTATUS.
  replace (Z.land (Z.shiftr w 8) 255) with (Z.shiftr w 8 mod 2 ^ 8)
    by (by rewrite <- Z.land_ones).
  pose proof (Z.mod_pos_bound (Z.shiftr w 8) (2 ^ 8)). lia.
Qed.

Lemma WTERMSIG_in_range w : status_in_range (128 + WTERMSIG w).
Proof.
  unfold status_in_range, WTERMSIG.
  replace (Z.land w 127) with (w mod 2 ^ 7) by (by rewrite <- Z.land_ones).
  pose proof (Z.mod_pos_bound w (2 ^ 7)). lia.
Qed.

Lemma apply_negate_in_range negate status :
  status_in_range status -> status_in_range (apply_negate negate status).
Proof.
  unfold status_in_range, apply_negate, lnot.
  destruct negate; [|done]. destruct (status =? 0); lia.
Qed.

Lemma last_status_write_fd fd text st :
  last_status (write_fd fd text st) = last_status st.
Proof. unfold write_fd. by repeat case_match. Qed.

Lemma last_status_export_arg arg st :
  last_status (export_arg arg st) = last_status st.
Proof.
  unfold export_arg. destruct (split_eq arg) as [[name value]|].
  - apply specials_set_var.
  - destruct (find_var arg (vars st)) as [i|]; [|done].
    destruct (vars st !! i); [|done]. unfold setenv. by destruct (_ || _).
Qed.

Lemma last_status_exports args st :
  last_status (foldl (fun s arg => export_arg arg s) st args) = last_status st.
Proof.
  revert st. induction args as [|a args IH]; intros st; [done|].
  simpl. by rewrite IH, last_status_export_arg.
Qed.

Lemma run_builtin_in_range name cmd st :
  status_in_range (last_status st) ->
  status_in_range (run_builtin k name cmd st).1.
Proof.
  intros Hst. unfold run_builtin.
  assert (status_in_range 0 /\ status_in_range 1) as [H0 H1]
    by (unfold status_in_range; lia).
  repeat case_bool_decide; try done.
  - unfold builtin_cd. repeat case_match; done.
  - unfold builtin_fg. destruct (last (jobs st)) as [job|]; [|done].
    cbn [fst]. destruct (WIFEXITED _).
    + apply WEXITSTATUS_in_range.
    + by destruct (WIFSTOPPED _).
  - unfold builtin_bg. repeat case_match; done.
Qed.

Lemma wait_children_in_range pgid pids : forall status st s,
  status_in_range status ->
  wait_children k pgid pids status st = inr s -> status_in_range s.
Proof.
  induction pids as [|pid pids IH]; intros status st s Hst H.
  - by injection H as <-.
  - cbn [wait_children] in H. destruct (WIFSTOPPED _); [done|].
    eapply IH; [|exact H]. destruct pids; [|done].
    destruct (WIFEXITED _); [apply WEXITSTATUS_in_range|].
    destruct (WIFSIGNALED _); [apply WTERMSIG_in_range|done].
Qed.

Lemma launch_in_range pl st s st' :
  launch k pl st = Returns (inr s) st' -> status_in_range s.
Proof.
  unfold launch. destruct (create_pipes _ _ _); [done|].
  destruct (fork_children _ _ _) as [pids|]; [|done].
  destruct (pl_background pl); [done|].
  destruct (wait_children _ _ _ _ _) as [st2|status] eqn:E; [done|].
  intros [= <- _]. eapply wait_children_in_range; [|exact E].
  unfold status_in_range. lia.
Qed.

Lemma execute_pipeline_in_range pl st status st' :
  status_in_range (last_status st) ->
  execute_pipeline k pl st = Returns status st' -> status_in_range status.
Proof.
  intros Hst. unfold execute_pipeline.
  assert (match launch k pl st with
          | Returns (inl _) st1 => Returns 0 st1
          | Returns (inr status) st1 =>
              Returns (apply_negate (pl_negate pl) status) st1
          | Dies st1 => Dies st1
          | Faults => Faults
          end = Returns status st' -> status_in_range status) as Hlaunch.
  { destruct (launch k pl st) as [[[]|s] st1| |] eqn:E; try done.
    - intros [= <- _]. unfold status_in_range. lia.
    - intros [= <- _]. apply apply_negate_in_range. by eapply launch_in_range. }
  destruct (pl_cmds pl) as [|cmd [|cmd' cmds]]; [| |done].
  - intros [= <- _]. unfold status_in_range. lia.
  - destruct (head (cmd_args cmd)) as [name|]; [|done].
    destruct (is_builtin name && negb (pl_background pl)); [|done].
    pose proof (run_builtin_in_range name cmd st Hst) as Hb.
    destruct (run_builtin k name cmd st) as [s st1].
    intros [= <- _]. by apply apply_negate_in_range.
Qed.

(** Parsing performs assignments, and these leave [last_status] alone. *)
Lemma parse_tokens_last_status n : forall toks done cmd ia st cmds st',
  (length toks <= n)%nat ->
  parse_tokens k toks done cmd ia st = Returns cmds st' ->
  last_status st' = last_status st.
Proof.
  induction n as [|n IH]; intros toks done cmd ia st cmds st' Hlen H.
  - destruct toks; [|simpl in Hlen; lia]. cbn [parse_tokens] in H.
    destruct (MAX_ARGS <=? _)%nat; [done|]. by injection H as _ <-.
  - destruct toks as [|tok rest].
    + cbn [parse_tokens] in H.
      destruct (MAX_ARGS <=? _)%nat; [done|]. by injection H as _ <-.
    + cbn [parse_tokens] in H. simpl in Hlen.
      repeat match type of H with
             | context [if ?b then _ else _] => destruct b eqn:?
             | context [match ?x with _ => _ end] => destruct x eqn:?
             end;
        try discriminate;
        (apply IH in H; [|simpl in *; lia]);
        rewrite H; try done; apply specials_set_var.
Qed.

Lemma parse_pipeline_last_status tokens st res st' :
  parse_pipeline k tokens st = Returns res st' ->
  last_status st' = last_status st.
Proof.
  unfold parse_pipeline.
  destruct (parse_tokens k _ [] empty_command true st) as [cmds st1| |] eqn:E;
    [|done..].
  intros [= _ <-]. by eapply parse_tokens_last_status.
Qed.

Lemma main_step_in_range line st st' :
  status_in_range (last_status st) ->
  main_step k line st = Returns () st' -> status_in_range (last_status st').
Proof.
  intros Hst. unfold main_step.
  set (st2 := printf "TTT" (if interactive st then printf "$ " st else st)).
  assert (last_status st2 = last_status st) as H2.
  { unfold st2, printf. rewrite last_status_write_fd.
    destruct (interactive st); [apply last_status_write_fd|done]. }
  case_bool_decide; [intros [= <-]; by rewrite H2|].
  destruct (tokenize _) as [|t ts]; [intros [= <-]; by rewrite H2|].
  destruct (parse_pipeline k (t :: ts) st2) as [[[] pl] st3| |] eqn:E; [| |done..].
  - apply parse_pipeline_last_status in E.
    destruct (execute_pipeline k pl st3) as [status st4| |] eqn:X; [|done..].
    intros [= <-]. cbn. eapply execute_pipeline_in_range; [|exact X].
    by rewrite E, H2.
  - apply parse_pipeline_last_status in E. intros [= <-]. by rewrite E, H2.
Qed.
End StatusRange.

(** X26. The status kept for [$?] never leaves 0..255: when it lies in that
    range before a run of input lines and the read loop comes to its end,
    it lies in the range after, whatever the lines are and whatever status
    words, errors and glob matches the system answers with. *)
Theorem last_status_stays_in_range (k : kernel) (lines : list string)
    (st st' : shell) :
  status_in_range (last_status st) ->
  main_loop k lines st = Returns () st' ->
  status_in_range (last_status st').
Proof.
  revert st. induction lines as [|line lines IH]; intros st Hst H.
  - cbn [main_loop] in H. injection H as <-.
    destruct (interactive st); [|done].
    unfold printf. by rewrite !last_status_write_fd.
  - cbn [main_loop] in H.
    destruct (main_step k line st) as [[] st1| |] eqn:E; [|done..].
    eapply IH; [|exact H]. by eapply main_step_in_range.
Qed.

Lemma last_status_stays_in_range_witness :
  exists st',
    main_loop (sample_kernel 1 (wait_status (Killed 9 false)))
      ["A=1"; "! ls | wc"; "sleep 5"] (initial_shell false 1 ∅) = Returns () st'
    /\ status_in_range (last_status st').
Proof.
  destruct (main_loop (sample_kernel 1 (wait_status (Killed 9 false)))
              ["A=1"; "! ls | wc"; "sleep 5"] (initial_shell false 1 ∅))
    as [[] st'| |] eqn:E; [|vm_compute in E; discriminate E..].
  exists st'. split; [done|].
  eapply last_status_stays_in_range; [|exact E].
  vm_compute. split; discriminate.
Defined.

Section PathSearch.
Context (k : kernel).
Implicit Types (dirs : list string) (cur d rest cmd : string).
Local Opaque MAX_LINE.

Lemma path_dirs_piece d : forall cur rest,
  str_contains ":" d = false ->
  path_dirs cur (d +:+ rest) = path_dirs (cur +:+ d) rest.
Proof.
  induction d as [|c d IH]; intros cur rest Hd.
  - by rewrite str_app_nil_l, str_app_nil_r.
  - simpl in Hd. apply orb_false_iff in Hd as [Hc Hd].
    rewrite str_app_cons. cbn [path_dirs]. rewrite Hc, IH by done.
    by rewrite str_app_assoc, str_app_cons, str_app_nil_l.
Qed.

Lemma path_dirs_colon cur rest :
  path_dirs cur (":" +:+ rest)
  = (if bool_decide (cur = "") then [] else [cur]) ++ path_dirs "" rest.
Proof. by rewrite str_app_cons, str_app_nil_l. Qed.

(** Splitting a joined list gives back its non-empty entries; [cur] is the
    piece read so far. *)
Lemma path_dirs_join_from d dirs : forall cur,
  Forall (fun d => str_contains ":" d = false) (d :: dirs) ->
  path_dirs cur (join_colon (d :: dirs))
  = filter (fun d => d <> "") ((cur +:+ d) :: dirs).
Proof.
  revert d. induction dirs as [|d' dirs IH]; intros d cur Hall.
  - apply Forall_cons in Hall as [Hd _]. cbn [join_colon].
    rewrite <- (str_app_nil_r d) at 1. rewrite path_dirs_piece by done.
    cbn [path_dirs]. rewrite filter_cons, filter_nil.
    case_bool_decide; by case_decide.
  - apply Forall_cons in Hall as [Hd Hall].
    change (join_colon (d :: d' :: dirs))
      with (d +:+ ":" +:+ join_colon (d' :: dirs)).
    rewrite path_dirs_piece, path_dirs_colon, (IH d' "") by done.
    rewrite str_app_nil_l, (filter_cons _ (cur +:+ d)).
    case_bool_decide; by case_decide.
Qed.

Lemma path_dirs_join_filter dirs :
  Forall (fun d => str_contains ":" d = false) dirs ->
  path_dirs "" (join_colon dirs) = filter (fun d => d <> "") dirs.
Proof.
  destruct dirs as [|d dirs]; [done|]. intros Hall.
  by rewrite path_dirs_join_from, str_app_nil_l.
Qed.

Lemma find_in_path_candidates cmd st path :
  str_contains "/" cmd = false ->
  getenv "PATH" st = Some path ->
  find_in_path k cmd st
  = snd <$> list_find (fun f => k_access_x k f = true)
              ((fun dir => path_candidate dir cmd) <$> path_dirs "" path).
Proof. unfold find_in_path. by intros -> ->. Qed.
End PathSearch.

(** X27. Splitting a colon-separated search path gives back the entries it
    was joined from, in order, except the empty ones: an empty entry (a
    leading, trailing or doubled colon) is skipped and never stands for the
    current directory. *)
Theorem path_dirs_of_joined_path (dirs : list string) :
  Forall (fun d => str_contains ":" d = false) dirs ->
  path_dirs "" (join_colon dirs) = filter (fun d => d <> "") dirs
  /\ Forall (fun d => d <> "" /\ str_contains ":" d = false)
       (path_dirs "" (join_colon dirs)).
Proof.
  intros Hall. rewrite path_dirs_join_filter by done. split; [done|].
  apply Forall_forall. intros d [Hd Hin]%list_elem_of_filter.
  split; [done|]. by eapply Forall_forall in Hall.
Qed.

Lemma path_dirs_of_joined_path_witness :
  path_dirs "" (join_colon [""; "/usr/bin"; ""; "/bin"; ""]) = ["/usr/bin"; "/bin"].
Proof.
  refine (proj1 (path_dirs_of_joined_path [""; "/usr/bin"; ""; "/bin"; ""] _)).
  repeat constructor.
Defined.

(** X28. A command name without a slash is looked up in the entries of
    [PATH] from left to right: the result is the file name built from the
    first non-empty entry whose file is executable, and there is no result
    when no entry has one. *)
Theorem find_in_path_searches_in_order (k : kernel) (cmd : string)
    (st : shell) (dirs : list string) :
  str_contains "/" cmd = false ->
  getenv "PATH" st = Some (join_colon dirs) ->
  Forall (fun d => str_contains ":" d = false) dirs ->
  (forall before dir after,
      dirs = before ++ dir :: after ->
      dir <> "" ->
      k_access_x k (path_candidate dir cmd) = true ->
      (forall d, d ∈ before -> d <> "" ->
                 k_access_x k (path_candidate d cmd) = false) ->
      find_in_path k cmd st = Some (path_candidate dir cmd))
  /\ ((forall d, d ∈ dirs -> d <> "" ->
                 k_access_x k (path_candidate d cmd) = false) ->
      find_in_path k cmd st = None).
Proof.
  intros Hslash Hpath Hall.
  rewrite (find_in_path_candidates k cmd st _ Hslash Hpath).
  rewrite path_dirs_join_filter by done. split.
  - intros before dir after -> Hdir Hx Hbefore.
    rewrite filter_app, filter_cons, decide_True, fmap_app, fmap_cons by done.
    set (f := fun dir => path_candidate dir cmd).
    set (pre := f <$> filter (fun d => d <> "") before).
    assert (list_find (fun p => k_access_x k p = true)
              (pre ++ path_candidate dir cmd
                 :: (f <$> filter (fun d => d <> "") after))
            = Some (length pre, path_candidate dir cmd)) as ->; [|done].
    apply list_find_Some. split_and!.
    + by rewrite lookup_app_r, Nat.sub_diag.
    + done.
    + intros j y Hj Hlt. rewrite lookup_app_l in Hj by done.
      apply list_elem_of_lookup_2, list_elem_of_fmap in Hj as (d & -> & Hd).
      apply list_elem_of_filter in Hd as [Hne Hd].
      unfold f. rewrite (Hbefore d Hd Hne). done.
  - intros Hnone.
    assert (list_find (fun p => k_access_x k p = true)
              ((fun dir => path_candidate dir cmd)
                 <$> filter (fun d => d <> "") dirs) = None) as ->; [|done].
    apply list_find_None, Forall_forall.
    intros p (d & -> & Hd)%list_elem_of_fmap.
    apply list_elem_of_filter in Hd as [Hne Hd].
    rewrite (Hnone d Hd Hne). done.
Qed.

Lemma find_in_path_searches_in_order_witness :
  find_in_path ls_kernel "ls"
    (initial_shell false 1 {[ "PATH" := "/usr/bin::/bin" ]})
  = Some "/bin/ls".
Proof.
  refine (proj1 (find_in_path_searches_in_order ls_kernel "ls"
                   (initial_shell false 1 {[ "PATH" := "/usr/bin::/bin" ]})
                   ["/usr/bin"; ""; "/bin"] _ _ _)
            ["/usr/bin"; ""] "/bin" [] _ _ _ _).
  - reflexivity.
  - vm_compute. reflexivity.
  - repeat constructor.
  - reflexivity.
  - discriminate.
  - vm_compute. reflexivity.
  - intros d Hd Hne. apply elem_of_cons in Hd as [->|Hd]; [by vm_compute|].
    apply elem_of_cons in Hd as [->|Hd]; [done|]. by apply elem_of_nil in Hd.
Defined.

Section Redirections.
Context (k : kernel).
Implicit Types (st : shell) (r : redirect_t) (rs : list redirect_t).

(** [open] returns a descriptor that was not in use. *)
Lemma lowest_free_free (tab : gmap Z endpoint) : tab !! lowest_free tab = None.
Proof.
  unfold lowest_free.
  destruct (list_find _ _) as [[i fd]|] eqn:E; simpl.
  - by apply list_find_Some in E as (_ & H & _).
  - exfalso. apply list_find_None in E.
    set (cands := Z.of_nat <$> seq 0 (S (size tab))) in E.
    assert (list_to_set cands ⊆@{gset Z} dom tab) as Hsub.
    { intros fd Hfd. apply elem_of_list_to_set in Hfd.
      eapply Forall_forall in E; [|exact Hfd].
      apply elem_of_dom. by destruct (tab !! fd). }
    apply subseteq_size in Hsub.
    rewrite size_list_to_set, size_dom in Hsub.
    + unfold cands in Hsub. rewrite length_fmap, length_seq in Hsub. lia.
    + apply NoDup_fmap; [apply _|apply NoDup_seq].
Qed.

Lemma setup_redirects_cons r rs st :
  k_open_err k (rd_file r) (rd_flags r) = None ->
  setup_redirects k (r :: rs) st = setup_redirects k rs (redirect_step r st).
Proof. cbn [setup_redirects]. by intros ->. Qed.

Lemma redirect_step_fdtab r st :
  is_Some (fdtab st !! rd_fd r) ->
  fdtab (redirect_step r st) = <[rd_fd r := redirect_endpoint r]> (fdtab st).
Proof.
  intros Hopen. unfold redirect_step, open_file, dup2_close, redirect_endpoint.
  pose proof (lowest_free_free (fdtab st)) as Hfree.
  set (fd := lowest_free (fdtab st)) in *.
  set (ep := if Z.testbit (rd_flags r) 0 then _ else _).
  cbn [fdtab set_fdtab set_sys_files]. rewrite lookup_insert_eq. cbn [fdtab].
  assert (fd <> rd_fd r) by (intros E; rewrite E, Hfree in *; by destruct Hopen).
  rewrite insert_insert_ne, delete_insert_id; [done| |done].
  by rewrite lookup_insert_ne.
Qed.

Lemma redirect_step_frame r st :
  jobs (redirect_step r st) = jobs st /\ vars (redirect_step r st) = vars st
  /\ environ (redirect_step r st) = environ st
  /\ last_status (redirect_step r st) = last_status st
  /\ sys_term (redirect_step r st) = sys_term st
  /\ sys_pipes (redirect_step r st) = sys_pipes st.
Proof.
  unfold redirect_step, open_file, dup2_close.
  cbn [fdtab set_fdtab set_sys_files]. rewrite lookup_insert_eq. done.
Qed.

Lemma redirect_step_files r st :
  sys_files (redirect_step r st)
  = if Z.testbit (rd_flags r) 9 then <[rd_file r := ""]> (sys_files st)
    else if Z.testbit (rd_flags r) 6 then
      match sys_files st !! rd_file r with
      | None => <[rd_file r := ""]> (sys_files st)
      | Some _ => sys_files st
      end
    else sys_files st.
Proof.
  unfold redirect_step, open_file, dup2_close.
  cbn [fdtab set_fdtab set_sys_files]. rewrite lookup_insert_eq. done.
Qed.

Lemma redirect_step_other_file r st path :
  path <> rd_file r ->
  sys_files (redirect_step r st) !! path = sys_files st !! path.
Proof.
  intros Hne. rewrite redirect_step_files.
  repeat case_match; by rewrite ?lookup_insert_ne.
Qed.

Lemma redirect_step_keeps_content r st path content :
  sys_files st !! path = Some content ->
  (rd_file r = path -> Z.testbit (rd_flags r) 9 = false) ->
  sys_files (redirect_step r st) !! path = Some content.
Proof.
  intros Hc Hr. destruct (decide (path = rd_file r)) as [->|Hne].
  - rewrite redirect_step_files, Hr, Hc by done. by case_match.
  - by rewrite redirect_step_other_file.
Qed.

Lemma redirect_step_keeps_empty r st path :
  sys_files st !! path = Some "" ->
  sys_files (redirect_step r st) !! path = Some "".
Proof.
  intros Hc. destruct (decide (path = rd_file r)) as [->|Hne].
  - rewrite redirect_step_files, Hc.
    repeat case_match; by rewrite ?lookup_insert_eq.
  - by rewrite redirect_step_other_file.
Qed.

Lemma redirect_step_truncates r st :
  Z.testbit (rd_flags r) 9 = true ->
  sys_files (redirect_step r st) !! rd_file r = Some "".
Proof. intros Ht. by rewrite redirect_step_files, Ht, lookup_insert_eq. Qed.

Lemma setup_redirects_keeps_empty rs : forall st st' path,
  setup_redirects k rs st = inl st' ->
  sys_files st !! path = Some "" -> sys_files st' !! path = Some "".
Proof.
  induction rs as [|r rs IH]; intros st st' path H Hc.
  - by injection H as <-.
  - cbn [setup_redirects] in H.
    destruct (k_open_err k (rd_file r) (rd_flags r)); [done|].
    eapply (IH (redirect_step r st)); [exact H|].
    by apply redirect_step_keeps_empty.
Qed.
End Redirections.

(** X29. When every file can be opened and every target descriptor is
    open, [setup_redirects] returns with each target descriptor referring to
    the file of the last redirection that names it; the set of open
    descriptors is the same as before (the descriptor [open] handed out is
    closed again), nothing is printed, and jobs and variables are
    untouched. *)
Theorem setup_redirects_replaces_targets (k : kernel)
    (rs : list redirect_t) (st : shell) :
  Forall (fun r => k_open_err k (rd_file r) (rd_flags r) = None) rs ->
  Forall (fun r => is_Some (fdtab st !! rd_fd r)) rs ->
  exists st',
    setup_redirects k rs st = inl st'
    /\ fdtab st' = redirect_table rs (fdtab st)
    /\ dom (fdtab st') =@{gset Z} dom (fdtab st)
    /\ jobs st' = jobs st /\ vars st' = vars st /\ environ st' = environ st
    /\ last_status st' = last_status st
    /\ sys_term st' = sys_term st /\ sys_pipes st' = sys_pipes st.
Proof.
  revert st. induction rs as [|r rs IH]; intros st Hopen Htarget.
  - exists st. by split_and!.
  - apply Forall_cons in Hopen as [Hr Hopen].
    apply Forall_cons in Htarget as [Ht Htarget].
    pose proof (redirect_step_fdtab r st Ht) as Htab.
    destruct (redirect_step_frame r st) as (Hj & Hv & He & Hl & Hs & Hp).
    destruct (IH (redirect_step r st) Hopen) as (st' & Hrun & H).
    { eapply Forall_impl; [exact Htarget|]. intros r' Hr'. cbn beta in *.
      rewrite Htab. apply lookup_insert_is_Some'. by right. }
    exists st'. rewrite setup_redirects_cons by done. split; [done|].
    rewrite Htab, Hj, Hv, He, Hl, Hs, Hp in H.
    by rewrite dom_insert_lookup_L in H.
Qed.

Lemma setup_redirects_replaces_targets_witness :
  exists st',
    setup_redirects (sample_kernel 1 0)
      [mk_redirect 1 "a" 577 420; mk_redirect 1 "b" 577 420]
      (initial_shell false 1 ∅) = inl st'
    /\ fdtab st' !! 1 = Some (WrFile "b")
    /\ dom (fdtab st') =@{gset Z} dom (fdtab (initial_shell false 1 ∅)).
Proof.
  destruct (setup_redirects_replaces_targets (sample_kernel 1 0)
              [mk_redirect 1 "a" 577 420; mk_redirect 1 "b" 577 420]
              (initial_shell false 1 ∅))
    as (st' & Hrun & Htab & Hdom & _).
  - repeat constructor.
  - repeat (apply Forall_cons; split; [vm_compute; eauto|]). apply Forall_nil_2.
  - exists st'. split; [done|]. split; [|done]. rewrite Htab. by vm_compute.
Defined.

(** X30. When [setup_redirects] returns, every file named by a truncating
    redirection is empty, also when a later redirection appends to it; a
    file that no truncating redirection names keeps its content, and a file
    that no redirection names is as before. *)
Theorem setup_redirects_file_effects (k : kernel) (rs : list redirect_t)
    (st st' : shell) :
  setup_redirects k rs st = inl st' ->
  (forall r, r ∈ rs -> Z.testbit (rd_flags r) 9 = true ->
             sys_files st' !! rd_file r = Some "")
  /\ (forall path content,
         sys_files st !! path = Some content ->
         (forall r, r ∈ rs -> rd_file r = path ->
                    Z.testbit (rd_flags r) 9 = false) ->
         sys_files st' !! path = Some content)
  /\ (forall path, path ∉ rd_file <$> rs ->
                   sys_files st' !! path = sys_files st !! path).
Proof.
  revert st. induction rs as [|r rs IH]; intros st H.
  - injection H as <-. split_and!; [|done..].
    intros r Hr. by apply elem_of_nil in Hr.
  - cbn [setup_redirects] in H.
    destruct (k_open_err k (rd_file r) (rd_flags r)); [done|].
    change (setup_redirects k rs (redirect_step r st) = inl st') in H.
    destruct (IH _ H) as (Htrunc & Hkeep & Hother). split_and!.
    + intros r' [->|Hr']%elem_of_cons Ht; [|by apply Htrunc].
      eapply setup_redirects_keeps_empty; [exact H|].
      by apply redirect_step_truncates.
    + intros path content Hc Hno. apply Hkeep.
      * apply redirect_step_keeps_content; [done|].
        intros E. apply (Hno r); [by left|done].
      * intros r' Hr'. apply Hno. by right.
    + intros path Hpath. rewrite fmap_cons in Hpath.
      apply not_elem_of_cons in Hpath as [Hne Hpath].
      by rewrite Hother, redirect_step_other_file.
Qed.

Lemma setup_redirects_file_effects_witness :
  exists st',
    setup_redirects (sample_kernel 1 0)
      [mk_redirect 1 "a" 577 420; mk_redirect 1 "a" 1089 420]
      (set_sys_files {[ "a" := "old"; "b" := "kept" ]} (initial_shell false 1 ∅))
    = inl st'
    /\ sys_files st' !! "a" = Some "" /\ sys_files st' !! "b" = Some "kept".
Proof.
  destruct (setup_redirects (sample_kernel 1 0)
              [mk_redirect 1 "a" 577 420; mk_redirect 1 "a" 1089 420]
              (set_sys_files {[ "a" := "old"; "b" := "kept" ]}
                 (initial_shell false 1 ∅))) as [st'|st'] eqn:E;
    [|vm_compute in E; discriminate E].
  destruct (setup_redirects_file_effects _ _ _ _ E) as (Htrunc & _ & Hother).
  exists st'. split_and!; [done| |].
  - apply (Htrunc (mk_redirect 1 "a" 577 420)); [by left|done].
  - rewrite (Hother "b"); [by vm_compute|].
    intros Hin. apply list_elem_of_fmap in Hin as (r & Hb & Hr).
    apply elem_of_cons in Hr as [->|Hr]; [done|].
    apply elem_of_cons in Hr as [->|Hr]; [done|]. by apply elem_of_nil in Hr.
Defined.
